(** * budget_analyzer.format_parser: the format-string parser

    A shallow embedding of [src/budget_analyzer/format_parser.py] and the
    properties of [parse_format_string] stated by the specification.

    Python [str] values are modelled as [string]; a character is a code
    point below 256 (the type [ascii] read as Latin-1), and the character
    tables below ([isspace], [is_word], [lower_char]) are Python's own on
    that range.  Python [int] indices are [nat]; the [dict]
    [field_positions] is a [gmap string nat]; the [set] values that end up
    in error messages are [gset string]; a raised exception is a value of
    [exception] returned through [result]. *)

From Stdlib Require Import Ascii NArith.
From stdpp Require Import gmap strings list pretty.

Local Open Scope char_scope.

(** ** Python built-ins used by the module *)

Definition code (c : ascii) : N := N_of_ascii c.

Definition between (lo hi : N) (c : ascii) : bool :=
  ((lo <=? code c) && (code c <=? hi))%N.

(** [str.isspace] on one character: the set [str.strip()] removes. *)
Definition isspace (c : ascii) : bool :=
  between 9 13 c || between 28 32 c || (code c =? 133)%N || (code c =? 160)%N.

(** The class [\w] of [re] on a [str] pattern: alphanumeric or underscore. *)
Definition is_word (c : ascii) : bool :=
  between 48 57 c || between 65 90 c || (code c =? 95)%N || between 97 122 c
  || (code c =? 170)%N || between 178 179 c || (code c =? 181)%N
  || between 185 186 c || between 188 190 c || between 192 214 c
  || between 216 246 c || between 248 255 c.

(** [str.lower] on one character. *)
Definition lower_char (c : ascii) : ascii :=
  if between 65 90 c || between 192 214 c || between 216 222 c
  then ascii_of_N (code c + 32)
  else c.

Local Close Scope char_scope.

(** [str.lower()]: character by character, as it is on code points below
    256 (beyond them it is not: U+0130 lower-cases to two characters). *)
Fixpoint lower (s : string) : string :=
  match s with
  | EmptyString => EmptyString
  | String c s' => String (lower_char c) (lower s')
  end.

(** [s.lstrip()] *)
Fixpoint lstrip (s : string) : string :=
  match s with
  | EmptyString => EmptyString
  | String c s' => if isspace c then lstrip s' else s
  end.

(** [s.rstrip()] *)
Fixpoint rstrip (s : string) : string :=
  match s with
  | EmptyString => EmptyString
  | String c s' =>
      match rstrip s' with
      | EmptyString => if isspace c then EmptyString else String c EmptyString
      | r => String c r
      end
  end.

(** [s.strip()] *)
Definition strip (s : string) : string := rstrip (lstrip s).

(** [s.split(sep)] for a one-character separator: always at least one
    piece, one more than the number of separators in [s]. *)
Fixpoint split (sep : ascii) (s : string) : list string :=
  match s with
  | EmptyString => [EmptyString]
  | String c s' =>
      if decide (c = sep) then EmptyString :: split sep s'
      else match split sep s' with
           | p :: ps => String c p :: ps
           | [] => [String c EmptyString]
           end
  end.

(** [sep.join(l)] *)
Fixpoint join (sep : string) (l : list string) : string :=
  match l with
  | [] => ""
  | [x] => x
  | x :: l' => x +:+ sep +:+ join sep l'
  end.

(** [enumerate(l)], started at [i] *)
Fixpoint enumerate_from {A} (i : nat) (l : list A) : list (nat * A) :=
  match l with
  | [] => []
  | x :: l' => (i, x) :: enumerate_from (S i) l'
  end.

Definition enumerate {A} (l : list A) : list (nat * A) := enumerate_from 0 l.

(** Truth value of a [str]-or-[None] value: [None] and [''] are false. *)
Definition truthy (o : option string) : bool :=
  match o with
  | Some (String _ _) => true
  | _ => false
  end.

(** ** Exceptions *)

(** The exceptions the function can raise, one constructor per [raise]
    site of [parse_format_string], carrying the values interpolated into
    the message; [KeyError] is what [field_positions[k]] raises on an
    absent key. *)
Inductive exception : Type :=
  | EmptyFormatString
  | InvalidFormat (idx : nat) (part : string)
  | UnknownField (field_name : string) (idx : nat) (valid_fields : gset string)
  | DuplicateField (field_name : string) (idx : nat)
  | MissingRequired (missing : gset string)
  | KeyError (key : string).

Inductive result (A : Type) : Type :=
  | Ok (x : A)
  | Raise (e : exception).
Arguments Ok {A} x.
Arguments Raise {A} e.

#[global] Instance result_bind : MBind result := λ A B k r,
  match r with
  | Ok x => k x
  | Raise e => Raise e
  end.

(** [repr] of a [set] of plain strings: the elements quoted, in whatever
    order the set iterates them. *)
Definition set_repr (X : gset string) (r : string) : Prop :=
  if decide (X = ∅) then r = "set()"
  else ∃ l, l ≡ₚ elements X ∧
            r = "{" +:+ join ", " ((λ x, "'" +:+ x +:+ "'") <$> l) +:+ "}".

(** The message of each [ValueError], as the f-strings build it. *)
Definition message (e : exception) (m : string) : Prop :=
  match e with
  | EmptyFormatString => m = "Empty format string"
  | InvalidFormat idx part =>
      m = "Invalid format at column " +:+ pretty idx +:+ ": '" +:+ part
          +:+ "'. Expected {field} or {field:format}"
  | UnknownField field_name idx valid_fields =>
      ∃ r, set_repr valid_fields r ∧
           m = "Unknown field '" +:+ field_name +:+ "' at column "
               +:+ pretty idx +:+ ". Valid fields: " +:+ r
  | DuplicateField field_name idx =>
      m = "Duplicate field '" +:+ field_name +:+ "' at column " +:+ pretty idx
  | MissingRequired missing =>
      ∃ r, set_repr missing r ∧ m = "Missing required fields: " +:+ r
  | KeyError key => m = "'" +:+ key +:+ "'"
  end.

(** ** The module *)

Record FormatSpec : Type := mkFormatSpec {
  date_column : nat;
  date_format : string;
  description_column : nat;
  amount_column : nat;
  location_column : option nat;
  has_header : bool;
  source_name : option string
}.

(** Longest prefix of [s] whose characters satisfy [p], and what follows. *)
Fixpoint span (p : ascii → bool) (s : string) : string * string :=
  match s with
  | EmptyString => (EmptyString, EmptyString)
  | String c s' =>
      if p c then let '(a, b) := span p s' in (String c a, b)
      else (EmptyString, s)
  end.

Definition not_close (c : ascii) : bool := negb (bool_decide (c = "}"%char)).

(** [field_pattern.match(part)] for
    [field_pattern = re.compile(r'\{(\w+)(?::([^}]+))?\}')]: the pair of
    [group(1)] and [group(2)], or [None].

    [match] anchors at the start only, so text after the closing brace
    is left unread.  Both repetitions are greedy and each is followed by a
    character outside its class ([:] or [}] after [\w+], [}] after
    [[^}]+]), so backtracking to a shorter repetition never succeeds and
    the scan below is the whole search: by [field_pattern_match_iff] the
    scan succeeds on exactly the texts that begin with a word of the
    pattern's language, and the two groups are the same for every way of
    reading the text against the pattern. *)
Definition field_pattern_match (part : string) : option (string * option string) :=
  match part with
  | String "{" s =>
      match span is_word s with
      | (EmptyString, _) => None
      | (name, String "}" _) => Some (name, None)
      | (name, String ":" s2) =>
          match span not_close s2 with
          | (EmptyString, _) => None
          | (fmt, String "}" _) => Some (name, Some fmt)
          | _ => None
          end
      | _ => None
      end
  | _ => None
  end.

Definition valid_fields : gset string :=
  {[ "date"; "description"; "amount"; "location" ]}.

Definition required : gset string := {[ "date"; "description"; "amount" ]}.

(** The two locals the loop assigns: the dict [field_positions] and the
    string [date_format] (here [cur_date_format]; [date_format] is the
    field of [FormatSpec]). *)
Record locals : Type := mkLocals {
  field_positions : gmap string nat;
  cur_date_format : string
}.

(** One iteration of [for idx, part in enumerate(parts)]. *)
Definition loop_body (st : locals) (it : nat * string) : result locals :=
  let '(idx, part) := it in
  match field_pattern_match part with
  | None => Raise (InvalidFormat idx part)
  | Some (g1, format_spec) =>
      let field_name := lower g1 in
      if decide (field_name = "_") then Ok st
      else if decide (field_name ∉ valid_fields)
      then Raise (UnknownField field_name idx valid_fields)
      else if decide (field_name ∈ dom (field_positions st))
      then Raise (DuplicateField field_name idx)
      else
        let fp := <[field_name := idx]> (field_positions st) in
        if bool_decide (field_name = "date") && truthy format_spec
        then Ok (mkLocals fp (default "" format_spec))
        else Ok (mkLocals fp (cur_date_format st))
  end.

Fixpoint loop (st : locals) (its : list (nat * string)) : result locals :=
  match its with
  | [] => Ok st
  | it :: its' => st' ← loop_body st it; loop st' its'
  end.

(** [d[k]] *)
Definition getitem (d : gmap string nat) (k : string) : result nat :=
  match d !! k with
  | Some v => Ok v
  | None => Raise (KeyError k)
  end.

(** [parts = [p.strip() for p in format_str.split(',')]] *)
Definition parts_of (format_str : string) : list string :=
  strip <$> split "," format_str.

Definition parse_format_string (format_str : string) : result FormatSpec :=
  let parts := parts_of format_str in
  if decide (parts = []) then Raise EmptyFormatString
  else
    st ← loop (mkLocals ∅ "%m/%d/%Y") (enumerate parts);
    let missing := required ∖ dom (field_positions st) in
    if decide (missing ≠ ∅) then Raise (MissingRequired missing)
    else
      date_col ← getitem (field_positions st) "date";
      description_col ← getitem (field_positions st) "description";
      amount_col ← getitem (field_positions st) "amount";
      Ok (mkFormatSpec date_col (cur_date_format st) description_col
            amount_col (field_positions st !! "location") true None).

(** ** Format strings by construction *)

Fixpoint str_all (p : ascii → bool) (s : string) : bool :=
  match s with
  | EmptyString => true
  | String c s' => p c && str_all p s'
  end.

Definition not_comma (c : ascii) : bool := negb (bool_decide (c = ","%char)).

Definition nonempty (s : string) : bool :=
  match s with
  | EmptyString => false
  | String _ _ => true
  end.

(** A segment that the pattern matches, taken apart: the white space
    before the opening brace, the identifier, the sub-format when there is
    one, and whatever follows the closing brace. *)
Record segment : Type := mkSegment {
  lead : string;
  ident : string;
  subformat : option string;
  trail : string
}.

Definition render_sub (o : option string) : string :=
  match o with
  | Some f => ":" +:+ f
  | None => ""
  end.

Definition render (g : segment) : string :=
  lead g +:+ "{" +:+ ident g +:+ render_sub (subformat g) +:+ "}" +:+ trail g.

Definition wf_sub (o : option string) : bool :=
  match o with
  | Some f => nonempty f && str_all not_close f && str_all not_comma f
  | None => true
  end.

Definition wf_segment (g : segment) : bool :=
  str_all isspace (lead g) && nonempty (ident g) && str_all is_word (ident g)
  && wf_sub (subformat g) && str_all not_comma (trail g).

(** ** Tags of the segments of a format string *)

(** The field tag of a segment: the lower-cased identifier when the
    segment matches the pattern. *)
Definition segment_tag (part : string) : option string :=
  (λ m, lower m.1) <$> field_pattern_match part.

Definition tags_of (format_str : string) : list (option string) :=
  segment_tag <$> parts_of format_str.

(** A recognised tag: the skip marker or one of the four fields. *)
Definition recognised (t : option string) : bool :=
  match t with
  | Some x => bool_decide (x = "_") || bool_decide (x ∈ valid_fields)
  | None => false
  end.

Definition occurrences (x : string) (tags : list (option string)) : nat :=
  length (filter (λ t, t = Some x) tags).

(** No field tag occurs twice (the skip marker may). *)
Definition no_repeat (tags : list (option string)) : bool :=
  forallb (λ x, bool_decide (occurrences x tags ≤ 1))
    ["date"; "description"; "amount"; "location"].

(** The tags a format string records: those of its segments, the skip
    marker left out. *)
Definition recorded_tags (tags : list (option string)) : gset string :=
  list_to_set (omap id tags) ∖ {["_"]}.

(** What a segment contributes to the parse: its text when the pattern
    does not match, else the lower-cased identifier and the sub-format. *)
Definition view (part : string) : string + string * option string :=
  match field_pattern_match part with
  | None => inl part
  | Some (g1, format_spec) => inr (lower g1, format_spec)
  end.

(** A segment with other text after its closing brace, and with another
    identifier. *)
Definition with_trail (g : segment) (tr : string) : segment :=
  mkSegment (lead g) (ident g) (subformat g) tr.


(** [segs] with [x] put in as segment number [k]. *)
Definition insert_at {A} (k : nat) (x : A) (segs : list A) : list A :=
  take k segs ++ x :: drop k segs.

(** The loop's locals with every recorded index renumbered by [f]. *)
Definition renumber (f : nat → nat) (st : locals) : locals :=
  mkLocals (f <$> field_positions st) (cur_date_format st).

(** Column indices after a segment is inserted at position [k]. *)
Definition shift (k : nat) (c : nat) : nat := if decide (k ≤ c) then S c else c.

Definition shift_spec (k : nat) (fs : FormatSpec) : FormatSpec :=
  mkFormatSpec (shift k (date_column fs)) (date_format fs)
    (shift k (description_column fs)) (shift k (amount_column fs))
    (shift k <$> location_column fs) (has_header fs) (source_name fs).

(** A skip segment, and a format string with skip segments put in one
    after the other, the last of the list first, each at its position. *)
Definition is_skip (g : segment) : bool :=
  wf_segment g && bool_decide (ident g = "_").

Definition insert_skips (ks : list (nat * segment)) (segs : list string)
    : list string :=
  foldr (λ kg acc, insert_at kg.1 (render kg.2) acc) segs ks.

Definition shift_all (ks : list (nat * segment)) (fs : FormatSpec) : FormatSpec :=
  foldr (λ kg acc, shift_spec kg.1 acc) fs ks.

(** [s] with its first character removed, when that character is [c]. *)
Definition expect (c : ascii) (s : string) : option string :=
  match s with
  | String d s' => if decide (d = c) then Some s' else None
  | EmptyString => None
  end.

(** ** Predefined formats *)

(** [PREDEFINED_FORMATS]: both legacy source types are mapped to [None]. *)
Definition PREDEFINED_FORMATS : gmap string (option string) :=
  {[ "amex" := None; "boa" := None ]}.

(** [PREDEFINED_FORMATS.get(source_type.lower())]: the value under the
    key, [None] when the key is absent. *)
Definition get_predefined_format (source_type : string) : option string :=
  default None (PREDEFINED_FORMATS !! lower source_type).

(** [source_type.lower() in PREDEFINED_FORMATS] *)
Definition is_special_parser_type (source_type : string) : bool :=
  bool_decide (lower source_type ∈ dom PREDEFINED_FORMATS).

(** ** More ways to edit a segment *)

Definition with_sub (g : segment) (o : option string) : segment :=
  mkSegment (lead g) (ident g) o (trail g).

(** What the loop reads of a segment: as [view], but the sub-format only
    of a [date] segment. *)
Definition reading (part : string) : string + string * option string :=
  match field_pattern_match part with
  | None => inl part
  | Some (g1, format_spec) =>
      inr (lower g1, if decide (lower g1 = "date") then format_spec else None)
  end.

(** 1 when the key [t] is in [field_positions], else 0. *)
Definition recorded (t : string) (st : locals) : nat :=
  if decide (t ∈ dom (field_positions st)) then 1 else 0.

(** * Properties *)

#[local] Arguments String.append !_ _ / : simpl nomatch.

(** ** Strings *)

Section strings.
Implicit Types (s t : string) (c : ascii) (p : ascii → bool).

Lemma string_app_nil_r s : s +:+ "" = s.
Proof. induction s; simpl; congruence. Qed.

Lemma string_app_assoc s t u : (s +:+ t) +:+ u = s +:+ t +:+ u.
Proof. induction s; simpl; congruence. Qed.

Lemma str_all_app p s t : str_all p (s +:+ t) = str_all p s && str_all p t.
Proof. induction s as [|c s IH]; simpl; [done|]. rewrite IH. by destruct (p c). Qed.

Lemma span_app p s t :
  str_all p s = true → span p (s +:+ t) = (s +:+ (span p t).1, (span p t).2).
Proof.
  induction s as [|c s IH]; simpl.
  - by destruct (span p t).
  - intros [Hc Hs]%andb_true_iff. rewrite Hc, (IH Hs). done.
Qed.


Lemma span_all p s : str_all p (span p s).1 = true.
Proof.
  induction s as [|c s IH]; simpl; [done|].
  destruct (p c) eqn:Hc; [|done]. destruct (span p s); simpl in *. by rewrite Hc.
Qed.

Lemma span_eq p s : s = (span p s).1 +:+ (span p s).2.
Proof.
  induction s as [|c s IH]; simpl; [done|].
  destruct (p c); [|done]. destruct (span p s); simpl in *. congruence.
Qed.

End strings.

(** ** The pattern *)

Lemma field_pattern_match_unfold part :
  field_pattern_match part =
    s ← expect "{" part;
    let name := (span is_word s).1 in
    if nonempty name then
      match expect "}" (span is_word s).2 with
      | Some _ => Some (name, None)
      | None =>
          s2 ← expect ":" (span is_word s).2;
          let fmt := (span not_close s2).1 in
          if nonempty fmt then
            _ ← expect "}" (span not_close s2).2; Some (name, Some fmt)
          else None
      end
    else None.
Proof.
  destruct part as [|c s]; [done|].
  destruct c as [[] [] [] [] [] [] [] []]; try reflexivity.
  simpl. destruct (span is_word s) as [name rest]; simpl.
  destruct name as [|n0 name]; [done|]; simpl.
  destruct rest as [|d s2]; [done|].
  destruct d as [[] [] [] [] [] [] [] []]; try reflexivity.
  simpl. destruct (span not_close s2) as [fmt rest2]; simpl.
  destruct fmt as [|f0 fmt]; [done|]; simpl.
  destruct rest2 as [|e s3]; [done|].
  destruct e as [[] [] [] [] [] [] [] []]; reflexivity.
Qed.


Lemma span_word_render_sub o r :
  span is_word (render_sub o +:+ String "}" r) = ("", render_sub o +:+ String "}" r).
Proof. by destruct o. Qed.

(** The pattern matches a text of the shape [{id}] or [{id:sub}] whatever
    follows the closing brace, and captures [id] and [sub]. *)
Lemma field_pattern_match_shape id o r :
  nonempty id = true → str_all is_word id = true →
  nonempty (default "x" o) = true → str_all not_close (default "" o) = true →
  field_pattern_match ("{" +:+ id +:+ render_sub o +:+ "}" +:+ r) = Some (id, o).
Proof.
  intros Hid Hw Hne Hnc. rewrite field_pattern_match_unfold. simpl.
  rewrite (span_app _ _ _ Hw), span_word_render_sub; simpl.
  rewrite string_app_nil_r, Hid. destruct o as [f|]; simpl in *; [|done].
  rewrite (span_app _ _ _ Hnc); simpl. by rewrite string_app_nil_r, Hne.
Qed.

Lemma expect_Some c s s' : expect c s = Some s' → s = String c s'.
Proof. destruct s as [|d s0]; simpl; [done|]. case_decide; naive_solver. Qed.

(** Conversely, a match is such a text: the scan finds the only way to
    read the segment against the pattern. *)
Lemma field_pattern_match_inv part id o :
  field_pattern_match part = Some (id, o) →
  nonempty id = true ∧ str_all is_word id = true ∧
  nonempty (default "x" o) = true ∧ str_all not_close (default "" o) = true ∧
  ∃ r, part = "{" +:+ id +:+ render_sub o +:+ "}" +:+ r.
Proof.
  rewrite field_pattern_match_unfold.
  destruct (expect "{" part) as [s|] eqn:E0; simpl; [|done].
  apply expect_Some in E0 as ->.
  pose proof (span_all is_word s) as Hw. pose proof (span_eq is_word s) as Hs.
  destruct (span is_word s) as [name rest]; simpl in *.
  destruct (nonempty name) eqn:Hne; [|done].
  destruct (expect "}" rest) as [r|] eqn:E1.
  - intros [= <- <-]. apply expect_Some in E1 as ->.
    repeat split; try done. exists r. by rewrite Hs.
  - destruct (expect ":" rest) as [s2|] eqn:E2; simpl; [|done].
    apply expect_Some in E2 as ->.
    pose proof (span_all not_close s2) as Hc. pose proof (span_eq not_close s2) as Hs2.
    destruct (span not_close s2) as [fmt rest2]; simpl in *.
    destruct (nonempty fmt) eqn:Hnf; [|done].
    destruct (expect "}" rest2) as [r|] eqn:E3; simpl; [|done].
    apply expect_Some in E3 as ->. intros [= <- <-].
    repeat split; try done. exists r. simpl. rewrite Hs at 1.
    by rewrite Hs2 at 1.
Qed.

Lemma field_pattern_match_iff part id o :
  field_pattern_match part = Some (id, o) ↔
  nonempty id = true ∧ str_all is_word id = true ∧
  nonempty (default "x" o) = true ∧ str_all not_close (default "" o) = true ∧
  ∃ r, part = "{" +:+ id +:+ render_sub o +:+ "}" +:+ r.
Proof.
  split; [apply field_pattern_match_inv|].
  intros (? & ? & ? & ? & r & ->). by apply field_pattern_match_shape.
Qed.

Lemma truthy_group2 part id o :
  field_pattern_match part = Some (id, o) → truthy o = bool_decide (is_Some o).
Proof.
  intros (_ & _ & Hne & _)%field_pattern_match_inv.
  destruct o as [[|]|]; done.
Qed.

(** ** [strip], [split] and [join] *)

Lemma lstrip_app w s : str_all isspace w = true → lstrip (w +:+ s) = lstrip s.
Proof.
  induction w as [|c w IH]; simpl; [done|].
  intros [-> ?]%andb_true_iff. auto.
Qed.

(** A text that [rstrip] leaves alone keeps whatever is appended to it,
    up to the white space at the very end. *)
Lemma rstrip_app s t : rstrip s = s → rstrip (s +:+ t) = s +:+ rstrip t.
Proof.
  induction s as [|c s IH]; simpl; [done|].
  destruct (rstrip s) as [|d r] eqn:Hr.
  - destruct (isspace c); [done|]. intros [= <-]. simpl. by destruct (rstrip t).
  - intros [= <-]. rewrite IH by done. done.
Qed.

Lemma rstrip_close s : rstrip (s +:+ "}") = s +:+ "}".
Proof.
  induction s as [|c s IH]; simpl; [done|]. rewrite IH. by destruct s.
Qed.

(** Stripping a rendered segment leaves the brace group at the front. *)
Lemma strip_render g :
  str_all isspace (lead g) = true →
  strip (render g)
  = "{" +:+ ident g +:+ render_sub (subformat g) +:+ "}" +:+ rstrip (trail g).
Proof.
  intros Hw. unfold strip, render. rewrite (lstrip_app _ _ Hw). simpl. 
  pose proof (rstrip_app (String "{" (ident g +:+ render_sub (subformat g) +:+ "}"))
                (trail g)) as H.
  simpl in H. rewrite !string_app_assoc in H. simpl in H. apply H.
  pose proof (rstrip_close (String "{" (ident g +:+ render_sub (subformat g)))) as H'.
  simpl in H'. by rewrite !string_app_assoc in H'.
Qed.

Lemma wf_segment_unfold g :
  wf_segment g = true →
  str_all isspace (lead g) = true ∧ nonempty (ident g) = true ∧
  str_all is_word (ident g) = true ∧
  nonempty (default "x" (subformat g)) = true ∧
  str_all not_close (default "" (subformat g)) = true ∧
  str_all not_comma (default "" (subformat g)) = true ∧
  str_all not_comma (trail g) = true.
Proof.
  unfold wf_segment, wf_sub. rewrite !andb_true_iff.
  destruct (subformat g); simpl; rewrite ?andb_true_iff; tauto.
Qed.

Lemma field_pattern_match_render g :
  wf_segment g = true →
  field_pattern_match (strip (render g)) = Some (ident g, subformat g).
Proof.
  intros (Hw & ? & ? & ? & ? & _)%wf_segment_unfold.
  rewrite (strip_render _ Hw). by apply field_pattern_match_shape.
Qed.

Lemma split_nonempty sep s : split sep s ≠ [].
Proof. destruct s as [|c s]; simpl; [done|]. case_decide; [done|]. by destruct (split sep s). Qed.

Lemma split_no_sep s : str_all not_comma s = true → split "," s = [s].
Proof.
  induction s as [|c s IH]; simpl; [done|].
  intros [Hc Hs]%andb_true_iff. rewrite (IH Hs).
  case_decide as E; [|done]. subst c. done.
Qed.

Lemma split_app_sep s t :
  str_all not_comma s = true → split "," (s +:+ String "," t) = s :: split "," t.
Proof.
  induction s as [|c s IH]; simpl; [done|].
  intros [Hc Hs]%andb_true_iff. rewrite (IH Hs).
  case_decide as E; [|done]. subst c. done.
Qed.

(** Splitting undoes joining when no segment holds a comma. *)
Lemma split_join segs :
  segs ≠ [] → Forall (λ s, str_all not_comma s = true) segs →
  split "," (join "," segs) = segs.
Proof.
  induction segs as [|x segs IH]; [done|]. intros _ [Hx Hs]%Forall_cons.
  destruct segs as [|y segs].
  - simpl. by apply split_no_sep.
  - change (split "," (x +:+ String "," (join "," (y :: segs))) = x :: y :: segs).
    rewrite (split_app_sep _ _ Hx). f_equal. by apply IH.
Qed.

Lemma parts_of_join segs :
  segs ≠ [] → Forall (λ s, str_all not_comma s = true) segs →
  parts_of (join "," segs) = strip <$> segs.
Proof. intros. unfold parts_of. by rewrite split_join. Qed.

Lemma str_all_render g :
  wf_segment g = true → str_all not_comma (render g) = true.
Proof.
  intros (Hw & _ & Hid & _ & _ & Hs & Ht)%wf_segment_unfold. unfold render.
  rewrite !str_all_app, Ht. simpl. rewrite !andb_true_r.
  apply andb_true_iff; split; [|apply andb_true_iff; split].
  - clear -Hw. induction (lead g) as [|c w IH]; simpl in *; [done|].
    apply andb_true_iff in Hw as [Hc Hw]. rewrite (IH Hw), andb_true_r.
    by destruct c as [[] [] [] [] [] [] [] []].
  - clear -Hid. induction (ident g) as [|c w IH]; simpl in *; [done|].
    apply andb_true_iff in Hid as [Hc Hw]. rewrite (IH Hw), andb_true_r.
    by destruct c as [[] [] [] [] [] [] [] []].
  - by destruct (subformat g).
Qed.

Lemma join_split s : join "," (split "," s) = s.
Proof.
  induction s as [|c s IH]; simpl; [done|].
  pose proof (split_nonempty "," s) as Hne.
  case_decide as E.
  - subst c. destruct (split "," s) as [|x l]; [done|]. simpl in *. by rewrite IH.
  - destruct (split "," s) as [|x l]; [done|]. rewrite <-IH.
    by destruct l.
Qed.

Lemma split_no_comma s : Forall (λ x, str_all not_comma x = true) (split "," s).
Proof.
  induction s as [|c s IH]; simpl; [by repeat constructor|].
  pose proof (split_nonempty "," s) as Hne.
  case_decide as E; [by constructor|].
  destruct (split "," s) as [|x l]; [done|].
  apply Forall_cons in IH as [Hx Hl]. constructor; [|done]. simpl.
  rewrite Hx, andb_true_r. unfold not_comma. by rewrite bool_decide_eq_false_2.
Qed.

Lemma lstrip_split s : ∃ w, str_all isspace w = true ∧ s = w +:+ lstrip s.
Proof.
  induction s as [|c s (w & Hw & IH)]; simpl; [by exists ""|].
  destruct (isspace c) eqn:Hc; [|by exists ""].
  exists (String c w). simpl. rewrite Hc, Hw. by rewrite <-IH.
Qed.

Lemma rstrip_split s : ∃ w, str_all isspace w = true ∧ s = rstrip s +:+ w.
Proof.
  induction s as [|c s (w & Hw & IH)]; simpl; [by exists ""|].
  destruct (rstrip s) as [|d r] eqn:Hr; simpl in *.
  - destruct (isspace c) eqn:Hc.
    + exists (String c w). simpl. rewrite Hc, Hw. by rewrite <-IH.
    + exists w. split; [done|]. simpl. by f_equal.
  - exists w. split; [done|]. simpl. by f_equal.
Qed.

(** Every comma-free segment that matches once stripped is the rendering
    of a well-formed [segment]. *)
Lemma matching_segment_render x id o :
  str_all not_comma x = true →
  field_pattern_match (strip x) = Some (id, o) →
  ∃ g, wf_segment g = true ∧ x = render g ∧ ident g = id ∧ subformat g = o.
Proof.
  intros Hx (Hid & Hw & Hne & Hnc & r & Hr)%field_pattern_match_inv.
  destruct (lstrip_split x) as (w & Hws & Hl).
  destruct (rstrip_split (lstrip x)) as (w' & Hws' & Hl').
  fold (strip x) in Hl'. rewrite Hr in Hl'. rewrite Hl' in Hl.
  exists (mkSegment w id o (r +:+ w')).
  assert (x = render (mkSegment w id o (r +:+ w'))) as Hrender.
  { rewrite Hl. unfold render. simpl. by rewrite !string_app_assoc. }
  split; [|done]. rewrite Hrender in Hx. unfold render in Hx. simpl in Hx.
  rewrite str_all_app in Hx. simpl in Hx. rewrite !str_all_app in Hx.
  simpl in Hx. rewrite str_all_app, !andb_true_iff in Hx.
  destruct Hx as (_ & _ & Hso & Htr & Htr').
  unfold wf_segment. simpl. rewrite Hws, Hid, Hw, str_all_app, Htr, Htr'. simpl.
  rewrite andb_true_r. destruct o as [f|]; simpl in *; [|done].
  by rewrite Hne, Hnc, Hso.
Qed.

(** ** The loop *)

Lemma enumerate_from_app {A} i (a b : list A) :
  enumerate_from i (a ++ b) = enumerate_from i a ++ enumerate_from (i + length a) b.
Proof.
  revert i; induction a as [|x a IH]; intros i; simpl.
  - by rewrite Nat.add_0_r.
  - rewrite IH. do 3 f_equal. lia.
Qed.

Lemma loop_app st a b : loop st (a ++ b) = st1 ← loop st a; loop st1 b.
Proof.
  revert st; induction a as [|it a IH]; intros st; simpl; [done|].
  destruct (loop_body st it); simpl; [apply IH|done].
Qed.

Lemma valid_fields_iff t :
  t ∈ valid_fields ↔ t = "date" ∨ t = "description" ∨ t = "amount" ∨ t = "location".
Proof. unfold valid_fields. rewrite !elem_of_union, !elem_of_singleton. tauto. Qed.

Lemma skip_not_valid : "_" ∉ valid_fields.
Proof. rewrite valid_fields_iff. by intros [|[|[|]]]. Qed.

Lemma segment_tag_Some part t :
  segment_tag part = Some t ↔
  ∃ id o, field_pattern_match part = Some (id, o) ∧ lower id = t.
Proof.
  unfold segment_tag. destruct (field_pattern_match part) as [[id o]|]; simpl.
  - split; [intros [= <-]; by exists id, o|]. by intros (? & ? & [= <- <-] & <-).
  - split; [done|]. by intros (? & ? & ? & _).
Qed.

Lemma segment_tag_None part :
  segment_tag part = None ↔ field_pattern_match part = None.
Proof. unfold segment_tag. by destruct (field_pattern_match part). Qed.

Lemma loop_body_invalid st idx part :
  segment_tag part = None → loop_body st (idx, part) = Raise (InvalidFormat idx part).
Proof. intros H%segment_tag_None. simpl. by rewrite H. Qed.

Lemma loop_body_skip st idx part :
  segment_tag part = Some "_" → loop_body st (idx, part) = Ok st.
Proof.
  intros (id & o & Hm & Hl)%segment_tag_Some. simpl. rewrite Hm, Hl.
  by rewrite decide_True.
Qed.

Lemma loop_body_unknown st idx part t :
  segment_tag part = Some t → t ≠ "_" → t ∉ valid_fields →
  loop_body st (idx, part) = Raise (UnknownField t idx valid_fields).
Proof.
  intros (id & o & Hm & Hl)%segment_tag_Some ??. simpl. rewrite Hm, Hl.
  rewrite decide_False by done. by rewrite decide_True.
Qed.

Lemma loop_body_duplicate st idx part t :
  segment_tag part = Some t → t ∈ valid_fields → t ∈ dom (field_positions st) →
  loop_body st (idx, part) = Raise (DuplicateField t idx).
Proof.
  intros (id & o & Hm & Hl)%segment_tag_Some Hv ?. simpl. rewrite Hm, Hl.
  rewrite decide_False by (intros ->; by apply skip_not_valid).
  rewrite decide_False by (by intros []). by rewrite decide_True.
Qed.

(** A new field is recorded at the index of its segment; only a [date]
    segment with a sub-format changes the date format. *)
Lemma loop_body_record st idx part id o :
  field_pattern_match part = Some (id, o) →
  lower id ∈ valid_fields → lower id ∉ dom (field_positions st) →
  loop_body st (idx, part)
  = Ok (mkLocals (<[lower id := idx]> (field_positions st))
          (if decide (lower id = "date")
           then default (cur_date_format st) o else cur_date_format st)).
Proof.
  intros Hm Hv Hd. simpl. rewrite Hm.
  rewrite decide_False by (intros E; rewrite E in Hv; by apply skip_not_valid).
  rewrite decide_False by (by intros []). rewrite decide_False by done.
  rewrite (truthy_group2 _ _ _ Hm).
  destruct (decide (lower id = "date")) as [E|E].
  - rewrite (bool_decide_eq_true_2 _ E). by destruct o.
  - by rewrite (bool_decide_eq_false_2 _ E).
Qed.

(** The iteration reads a segment through [view] only. *)
Lemma loop_body_view st idx p p' :
  view p = view p' → loop_body st (idx, p) = loop_body st (idx, p').
Proof.
  unfold view, loop_body.
  destruct (field_pattern_match p) as [[id o]|], (field_pattern_match p') as [[id' o']|];
    intros [=]; subst; [|done].
  by match goal with H : lower _ = lower _ |- _ => rewrite H end.
Qed.

Lemma loop_view st i ps ps' :
  view <$> ps = view <$> ps' →
  loop st (enumerate_from i ps) = loop st (enumerate_from i ps').
Proof.
  revert st i ps'; induction ps as [|p ps IH]; intros st i [|p' ps'] [=]; [done|].
  cbn [enumerate_from loop]. rewrite (loop_body_view st i p p') by done.
  destruct (loop_body st (i, p')); simpl; [by apply IH|done].
Qed.

Lemma parse_view s s' :
  view <$> parts_of s = view <$> parts_of s' →
  parse_format_string s = parse_format_string s'.
Proof.
  intros H. unfold parse_format_string, enumerate.
  rewrite (loop_view _ 0 _ _ H).
  assert (parts_of s = [] ↔ parts_of s' = []) as E.
  { destruct (parts_of s), (parts_of s'); done. }
  repeat case_decide; tauto || done.
Qed.

Lemma loop_body_Ok st idx part st' :
  loop_body st (idx, part) = Ok st' →
  ∃ id o, field_pattern_match part = Some (id, o) ∧
    ((lower id = "_" ∧ st' = st) ∨
     (lower id ∈ valid_fields ∧ (lower id ∉ dom (field_positions st)) ∧
      st' = mkLocals (<[lower id := idx]> (field_positions st))
              (if decide (lower id = "date")
               then default (cur_date_format st) o else cur_date_format st))).
Proof.
  destruct (field_pattern_match part) as [[id o]|] eqn:Hm.
  2:{ simpl. by rewrite Hm. }
  intros H. exists id, o. split; [done|].
  destruct (decide (lower id = "_")) as [E|E].
  { left. split; [done|]. rewrite loop_body_skip in H; [congruence|].
    apply segment_tag_Some. by exists id, o. }
  right. destruct (decide (lower id ∈ valid_fields)) as [Hv|Hv].
  2:{ rewrite (loop_body_unknown _ _ _ (lower id)) in H; [done| |done..].
      apply segment_tag_Some. by exists id, o. }
  destruct (decide (lower id ∈ dom (field_positions st))) as [Hd|Hd].
  { rewrite (loop_body_duplicate _ _ _ (lower id)) in H; [done| |done..].
    apply segment_tag_Some. by exists id, o. }
  rewrite (loop_body_record _ _ _ _ _ Hm Hv Hd) in H. by injection H as <-.
Qed.

#[local] Arguments loop_body : simpl never.

Lemma loop_cons st i p ps :
  loop st (enumerate_from i (p :: ps))
  = st1 ← loop_body st (i, p); loop st1 (enumerate_from (S i) ps).
Proof. reflexivity. Qed.

Lemma occurrences_cons x t tags :
  occurrences x (t :: tags)
  = (if decide (t = Some x) then 1 else 0) + occurrences x tags.
Proof. unfold occurrences. rewrite filter_cons. by case_decide. Qed.


Lemma occurrences_pos x tags : Some x ∈ tags ↔ 0 < occurrences x tags.
Proof.
  induction tags as [|t tags IH].
  - split; [by intros ?%elem_of_nil|]. unfold occurrences. simpl. lia.
  - rewrite occurrences_cons, elem_of_cons, IH. case_decide as E.
    + split; [lia|]. by left.
    + split; [intros [?|?]; [congruence|lia]|]. intros ?. right. lia.
Qed.

Lemma no_repeat_le tags t :
  no_repeat tags = true → t ∈ valid_fields → occurrences t tags ≤ 1.
Proof.
  unfold no_repeat. simpl. rewrite !andb_true_iff, !bool_decide_eq_true.
  rewrite valid_fields_iff. intros (? & ? & ? & ? & _) [->|[->|[->| ->]]]; done.
Qed.

Lemma recognised_Some t :
  recognised t = true ↔ ∃ x, t = Some x ∧ (x = "_" ∨ x ∈ valid_fields).
Proof.
  destruct t as [x|]; simpl.
  - rewrite orb_true_iff, !bool_decide_eq_true. split; [by exists x|].
    by intros (? & [= <-] & ?).
  - split; [done|]. by intros (? & ? & _).
Qed.

(** Segments with recognised tags, none of them a field that is already
    recorded or that occurs twice, are all consumed. *)
Lemma loop_succeeds st i ps :
  forallb recognised (segment_tag <$> ps) = true →
  (∀ t, t ∈ valid_fields →
        occurrences t (segment_tag <$> ps)
        + (if decide (t ∈ dom (field_positions st)) then 1 else 0) ≤ 1) →
  ∃ st', loop st (enumerate_from i ps) = Ok st'.
Proof.
  revert st i; induction ps as [|p ps IH]; intros st i Hrec Hocc; simpl.
  { by exists st. }
  simpl in Hrec. apply andb_true_iff in Hrec as [Hp Hrec].
  apply recognised_Some in Hp as (t & Ht & Hcase).
  destruct (decide (t = "_")) as [->|Hne].
  - rewrite loop_body_skip by done. simpl. apply IH; [done|].
    intros t Hv. specialize (Hocc t Hv). rewrite fmap_cons, occurrences_cons in Hocc. lia.
  - destruct Hcase as [?|Hv]; [done|].
    pose proof Ht as (id & o & Hm & <-)%segment_tag_Some.
    assert (lower id ∉ dom (field_positions st)) as Hd.
    { intros Hd. specialize (Hocc _ Hv).
      rewrite fmap_cons, occurrences_cons, Ht in Hocc.
      rewrite !decide_True in Hocc by done. lia. }
    rewrite (loop_body_record _ _ _ _ _ Hm Hv Hd). simpl. apply IH; [done|].
    intros t Hvt. specialize (Hocc t Hvt).
    rewrite fmap_cons, occurrences_cons, Ht in Hocc. simpl.
    rewrite dom_insert_L. destruct (decide (t = lower id)) as [->|Hneq].
    + rewrite decide_True in Hocc by done. rewrite decide_False in Hocc by done.
      rewrite decide_True by (apply elem_of_union_l; by apply elem_of_singleton).
      lia.
    + rewrite decide_False in Hocc by congruence.
      destruct (decide (t ∈ dom (field_positions st))).
      * rewrite decide_True by (by apply elem_of_union_r). lia.
      * rewrite decide_False; [lia|].
        rewrite elem_of_union, elem_of_singleton. tauto.
Qed.

(** After the loop the recorded keys are those present before and the
    field tags of the segments consumed. *)
Lemma loop_Ok_dom st i ps st' t :
  loop st (enumerate_from i ps) = Ok st' →
  t ∈ dom (field_positions st') ↔
  t ∈ dom (field_positions st) ∨ (t ≠ "_" ∧ Some t ∈ segment_tag <$> ps).
Proof.
  revert st i; induction ps as [|p ps IH]; intros st i; simpl.
  { intros [= <-]. rewrite elem_of_nil. tauto. }
  destruct (loop_body st (i, p)) as [st1|] eqn:Hb; simpl; [|done].
  intros H. rewrite (IH _ _ H), elem_of_cons. clear IH H.
  apply loop_body_Ok in Hb as (id & o & Hm & Hcase).
  assert (segment_tag p = Some (lower id)) as ->.
  { apply segment_tag_Some. by exists id, o. }
  destruct Hcase as [[E ->]|(Hv & Hd & ->)].
  - rewrite E. split; [tauto|]. intros [?|[? [[= ->]|?]]]; tauto.
  - simpl. rewrite dom_insert_L, elem_of_union, elem_of_singleton.
    assert (lower id ≠ "_") by (intros E; rewrite E in Hv; by apply skip_not_valid).
    split; [intros [[->|?]|?]; tauto|]. intros [?|[? [[= ->]|?]]]; tauto.
Qed.

(** A position recorded by the loop is the index of a segment carrying
    that tag. *)
Lemma loop_Ok_position st i ps st' t j :
  loop st (enumerate_from i ps) = Ok st' →
  field_positions st' !! t = Some j →
  field_positions st !! t = Some j ∨
  (i ≤ j ∧ (segment_tag <$> ps) !! (j - i) = Some (Some t)).
Proof.
  revert st i; induction ps as [|p ps IH]; intros st i; simpl.
  { intros [= <-]. tauto. }
  destruct (loop_body st (i, p)) as [st1|] eqn:Hb; simpl; [|done].
  intros H Hj. destruct (IH _ _ H Hj) as [Hj1|[Hle Hlk]]; clear IH H.
  - apply loop_body_Ok in Hb as (id & o & Hm & Hcase).
    destruct Hcase as [[E ->]|(Hv & Hd & ->)]; [tauto|]. simpl in Hj1.
    destruct (decide (lower id = t)) as [<-|Hne].
    + rewrite lookup_insert_eq in Hj1. injection Hj1 as <-. right. split; [done|].
      rewrite Nat.sub_diag. simpl. f_equal. apply segment_tag_Some. by exists id, o.
    + rewrite lookup_insert_ne in Hj1 by done. tauto.
  - right. split; [lia|]. by replace (j - i) with (S (j - S i)) by lia.
Qed.

(** ** The parser *)

Lemma parts_of_nonempty s : parts_of s ≠ [].
Proof.
  unfold parts_of. pose proof (split_nonempty "," s). by destruct (split "," s).
Qed.

Lemma parse_loop_Raise s e :
  loop (mkLocals ∅ "%m/%d/%Y") (enumerate (parts_of s)) = Raise e →
  parse_format_string s = Raise e.
Proof.
  intros H. unfold parse_format_string.
  rewrite decide_False by apply parts_of_nonempty. by rewrite H.
Qed.

Lemma parse_loop_Ok s st :
  loop (mkLocals ∅ "%m/%d/%Y") (enumerate (parts_of s)) = Ok st →
  parse_format_string s =
    if decide (required ∖ dom (field_positions st) ≠ ∅)
    then Raise (MissingRequired (required ∖ dom (field_positions st)))
    else
      date_col ← getitem (field_positions st) "date";
      description_col ← getitem (field_positions st) "description";
      amount_col ← getitem (field_positions st) "amount";
      Ok (mkFormatSpec date_col (cur_date_format st) description_col
            amount_col (field_positions st !! "location") true None).
Proof.
  intros H. unfold parse_format_string.
  rewrite decide_False by apply parts_of_nonempty. by rewrite H.
Qed.

Lemma required_iff t :
  t ∈ required ↔ t = "date" ∨ t = "description" ∨ t = "amount".
Proof. unfold required. rewrite !elem_of_union, !elem_of_singleton. tauto. Qed.

Lemma required_present (d : gmap string nat) :
  required ∖ dom d = ∅ ↔
  is_Some (d !! "date") ∧ is_Some (d !! "description") ∧ is_Some (d !! "amount").
Proof.
  rewrite <-!elem_of_dom. split.
  - intros H. repeat split; apply dec_stable; intros Hn;
      eapply (not_elem_of_empty (C:=gset string)); rewrite <-H;
      (apply elem_of_difference; split; [apply required_iff|exact Hn]); tauto.
  - intros (? & ? & ?). apply leibniz_equiv, elem_of_equiv_empty. intros t.
    rewrite elem_of_difference, required_iff. intros [[->|[->| ->]] ?]; done.
Qed.

(** A successful parse comes from a loop that ran to its end and recorded
    the three required fields; the result reads the loop's locals. *)
Lemma parse_Ok_inv s fs :
  parse_format_string s = Ok fs →
  ∃ st, loop (mkLocals ∅ "%m/%d/%Y") (enumerate (parts_of s)) = Ok st ∧
        field_positions st !! "date" = Some (date_column fs) ∧
        field_positions st !! "description" = Some (description_column fs) ∧
        field_positions st !! "amount" = Some (amount_column fs) ∧
        field_positions st !! "location" = location_column fs ∧
        cur_date_format st = date_format fs.
Proof.
  destruct (loop (mkLocals ∅ "%m/%d/%Y") (enumerate (parts_of s))) as [st|e] eqn:Hl.
  2:{ by rewrite (parse_loop_Raise _ _ Hl). }
  rewrite (parse_loop_Ok _ _ Hl). case_decide; [done|]. unfold getitem.
  destruct (field_positions st !! "date") eqn:?; simpl; [|done].
  destruct (field_positions st !! "description") eqn:?; simpl; [|done].
  destruct (field_positions st !! "amount") eqn:?; simpl; [|done].
  intros [= <-]. by exists st.
Qed.

(** Conversely, when the loop ends with the required fields recorded. *)
Lemma parse_Ok_intro s st d c a :
  loop (mkLocals ∅ "%m/%d/%Y") (enumerate (parts_of s)) = Ok st →
  field_positions st !! "date" = Some d →
  field_positions st !! "description" = Some c →
  field_positions st !! "amount" = Some a →
  parse_format_string s
  = Ok (mkFormatSpec d (cur_date_format st) c a
          (field_positions st !! "location") true None).
Proof.
  intros Hl Hd Hc Ha. rewrite (parse_loop_Ok _ _ Hl).
  rewrite decide_False.
  2:{ intros Hne. apply Hne, required_present. rewrite Hd, Hc, Ha. eauto. }
  unfold getitem. by rewrite Hd, Hc, Ha.
Qed.

(** The loop raises from its three [raise] sites only. *)
Lemma loop_Raise_kind st its e :
  loop st its = Raise e →
  match e with
  | InvalidFormat _ _ | UnknownField _ _ _ | DuplicateField _ _ => True
  | _ => False
  end.
Proof.
  revert st; induction its as [|[i p] its IH]; intros st; [done|].
  cbn [loop]. destruct (loop_body st (i, p)) as [st1|e1] eqn:Hb; simpl; [apply IH|].
  intros [= ->]. unfold loop_body in Hb.
  destruct (field_pattern_match p) as [[id o]|]; [|by injection Hb as <-].
  repeat case_decide; try done; try (by injection Hb as <-).
  by destruct (_ && _).
Qed.

(** [parse_format_string] raises neither the [ValueError] of the guard
    [if not parts] ([split] returns a piece even for the empty string) nor
    a [KeyError] (the look-ups come after the check for missing fields). *)
Lemma parse_Raise_kind s e :
  parse_format_string s = Raise e →
  match e with
  | EmptyFormatString | KeyError _ => False
  | _ => True
  end.
Proof.
  destruct (loop (mkLocals ∅ "%m/%d/%Y") (enumerate (parts_of s))) as [st|e1] eqn:Hl.
  - rewrite (parse_loop_Ok _ _ Hl). case_decide as Hm; [by intros [= <-]|].
    apply required_present in Hm as ([d Hd] & [c Hc] & [a Ha]).
    unfold getitem. by rewrite Hd, Hc, Ha.
  - rewrite (parse_loop_Raise _ _ Hl). intros [= ->].
    apply loop_Raise_kind in Hl. by destruct e.
Qed.

Lemma parse_never_EmptyFormatString s :
  parse_format_string s ≠ Raise EmptyFormatString.
Proof. by intros H%parse_Raise_kind. Qed.

Lemma parse_no_KeyError s k : parse_format_string s ≠ Raise (KeyError k).
Proof. by intros H%parse_Raise_kind. Qed.

Lemma occurrences_unique x tags i j :
  occurrences x tags ≤ 1 →
  tags !! i = Some (Some x) → tags !! j = Some (Some x) → i = j.
Proof.
  revert i j; induction tags as [|t tags IH]; intros i j Ho Hi Hj; [done|].
  rewrite occurrences_cons in Ho.
  destruct i as [|i], j as [|j]; simpl in *; [done| | |f_equal; apply IH; [lia|done..]].
  - injection Hi as ->. rewrite decide_True in Ho by done.
    apply list_elem_of_lookup_2, occurrences_pos in Hj. lia.
  - injection Hj as ->. rewrite decide_True in Ho by done.
    apply list_elem_of_lookup_2, occurrences_pos in Hi. lia.
Qed.

Lemma loop_Ok_recorded s st t :
  loop (mkLocals ∅ "%m/%d/%Y") (enumerate (parts_of s)) = Ok st →
  t ≠ "_" → 0 < occurrences t (tags_of s) →
  ∃ j, field_positions st !! t = Some j ∧ tags_of s !! j = Some (Some t).
Proof.
  intros Hl Hne Ho%occurrences_pos.
  assert (t ∈ dom (field_positions st)) as [j Hj]%elem_of_dom.
  { apply (loop_Ok_dom _ _ _ _ t Hl). by right. }
  exists j. split; [done|].
  destruct (loop_Ok_position _ _ _ _ _ _ Hl Hj) as [H|[_ H]]; [done|].
  by rewrite Nat.sub_0_r in H.
Qed.

(** Once [date] is recorded, neither its position nor the date format
    changes. *)
Lemma loop_date_frozen st i ps st' :
  loop st (enumerate_from i ps) = Ok st' →
  "date" ∈ dom (field_positions st) →
  field_positions st' !! "date" = field_positions st !! "date" ∧
  cur_date_format st' = cur_date_format st.
Proof.
  revert st i; induction ps as [|p ps IH]; intros st i.
  { by intros [= <-]. }
  rewrite loop_cons. destruct (loop_body st (i, p)) as [st1|] eqn:Hb; simpl; [|done].
  intros Hl Hin. apply loop_body_Ok in Hb as (id & o & Hm & [[_ ->]|(Hv & Hd & ->)]).
  { by apply (IH _ _ Hl). }
  assert (lower id ≠ "date") as Hne by (by intros E; rewrite E in Hd).
  destruct (IH _ _ Hl) as [-> ->]; simpl.
  - rewrite dom_insert_L. by apply elem_of_union_r.
  - rewrite lookup_insert_ne by done. by rewrite decide_False.
Qed.

(** Until then the date format is the one the loop started with; the
    date segment sets it to its sub-format, if it has one. *)
Lemma loop_date_fresh st i ps st' :
  loop st (enumerate_from i ps) = Ok st' →
  "date" ∉ dom (field_positions st) →
  (("date" ∉ dom (field_positions st')) ∧ cur_date_format st' = cur_date_format st) ∨
  ∃ j part id o,
    field_positions st' !! "date" = Some j ∧ i ≤ j ∧
    ps !! (j - i) = Some part ∧
    field_pattern_match part = Some (id, o) ∧ lower id = "date" ∧
    cur_date_format st' = default (cur_date_format st) o.
Proof.
  revert st i; induction ps as [|p ps IH]; intros st i.
  { intros [= <-]. by left. }
  rewrite loop_cons. destruct (loop_body st (i, p)) as [st1|] eqn:Hb; simpl; [|done].
  intros Hl Hin. apply loop_body_Ok in Hb as (id & o & Hm & [[_ ->]|(Hv & Hd & ->)]).
  { destruct (IH _ _ Hl Hin) as [?|(j & part & id' & o' & ? & ? & Hp & ?)]; [by left|].
    right. exists j, part, id', o'. split; [done|]. split; [lia|].
    split; [|done]. by replace (j - i) with (S (j - S i)) by lia. }
  destruct (decide (lower id = "date")) as [E|E].
  - right. exists i, p, id, o.
    destruct (loop_date_frozen _ _ _ _ Hl) as [-> ->]; simpl.
    + rewrite dom_insert_L, E. by apply elem_of_union_l, elem_of_singleton.
    + rewrite E, lookup_insert_eq, Nat.sub_diag. done.
  - destruct (IH _ _ Hl) as [?|(j & part & id' & o' & ? & ? & Hp & ?)]; simpl in *.
    + rewrite dom_insert_L, elem_of_union, elem_of_singleton. by intros [?|?].
    + by left.
    + right. exists j, part, id', o'. split; [done|]. split; [lia|].
      split; [|done]. by replace (j - i) with (S (j - S i)) by lia.
Qed.

(** The segments before index [j], when their tags are recognised and no
    field repeats among them, are consumed without error; the parse then
    raises whatever the iteration on segment [j] raises. *)
Lemma parse_first_error s j p :
  parts_of s !! j = Some p →
  forallb recognised (take j (tags_of s)) = true →
  no_repeat (take j (tags_of s)) = true →
  ∃ st, (∀ t, t ∈ dom (field_positions st)
              ↔ t ≠ "_" ∧ Some t ∈ take j (tags_of s)) ∧
        ∀ e, loop_body st (j, p) = Raise e → parse_format_string s = Raise e.
Proof.
  intros Hp Hrec Hrep. unfold tags_of in *. rewrite <-fmap_take in *.
  destruct (loop_succeeds (mkLocals ∅ "%m/%d/%Y") 0 (take j (parts_of s)) Hrec)
    as [st Hl].
  { intros t Hv. simpl. rewrite dom_empty_L, decide_False by apply not_elem_of_empty.
    pose proof (no_repeat_le _ _ Hrep Hv). lia. }
  exists st. split.
  - intros t. rewrite (loop_Ok_dom _ _ _ _ t Hl). simpl.
    rewrite dom_empty_L, elem_of_empty. tauto.
  - intros e He. apply parse_loop_Raise. unfold enumerate.
    rewrite <-(take_drop_middle _ _ _ Hp), enumerate_from_app, loop_app, Hl. simpl.
    rewrite length_take_le by (apply Nat.lt_le_incl, (lookup_lt_Some _ _ _ Hp)).
    by rewrite He.
Qed.

Lemma tags_of_lookup s j t :
  tags_of s !! j = Some t → ∃ p, parts_of s !! j = Some p ∧ segment_tag p = t.
Proof.
  unfold tags_of. rewrite list_lookup_fmap.
  destruct (parts_of s !! j) as [p|]; simpl; [|done]. intros [= <-]. by exists p.
Qed.

Lemma recorded_tags_iff tags t :
  t ∈ recorded_tags tags ↔ t ≠ "_" ∧ Some t ∈ tags.
Proof.
  unfold recorded_tags.
  rewrite elem_of_difference, elem_of_singleton, elem_of_list_to_set, list_elem_of_omap.
  split.
  - intros [(o & Ho & E) ?]. simpl in E. by subst o.
  - intros [? ?]. split; [|done]. by exists (Some t).
Qed.

(** ** The claims *)

(** C7: the second example of the docstring parses to columns 0, 2, 3 and
    4 for date, description, location and amount, with the date format of
    the date segment; the skip segment takes index 1 and maps nothing. *)
Theorem parse_docstring_example :
  parse_format_string "{date:%Y-%m-%d}, {_}, {description}, {location}, {amount}"
  = Ok {| date_column := 0; date_format := "%Y-%m-%d"; description_column := 2;
          amount_column := 4; location_column := Some 3; has_header := true;
          source_name := None |}.
Proof. vm_compute. reflexivity. Qed.

(** C1, on the code: the empty string, a string of white space and a
    string of commas do not raise "Empty format string"; each raises
    "Invalid format at column 0" for its first, empty segment. *)
Theorem parse_empty_is_invalid_format :
  parse_format_string "" = Raise (InvalidFormat 0 "") ∧
  parse_format_string "   " = Raise (InvalidFormat 0 "") ∧
  parse_format_string ",," = Raise (InvalidFormat 0 "") ∧
  message (InvalidFormat 0 "")
    "Invalid format at column 0: ''. Expected {field} or {field:format}" ∧
  ¬ message (InvalidFormat 0 "") "Empty format string".
Proof. repeat split; try (vm_compute; reflexivity). vm_compute. discriminate. Qed.

(** C2: a format string whose segments all carry recognised tags, with
    [date], [description] and [amount] once each and [location] at most
    once, parses; each of the three columns is the index of the one
    segment that carries its tag, and the three are pairwise distinct. *)
Theorem parse_well_formed (s : string) :
  forallb recognised (tags_of s) = true →
  occurrences "date" (tags_of s) = 1 →
  occurrences "description" (tags_of s) = 1 →
  occurrences "amount" (tags_of s) = 1 →
  occurrences "location" (tags_of s) ≤ 1 →
  ∃ fs, parse_format_string s = Ok fs ∧
        (∀ k, tags_of s !! k = Some (Some "date") ↔ k = date_column fs) ∧
        (∀ k, tags_of s !! k = Some (Some "description")
              ↔ k = description_column fs) ∧
        (∀ k, tags_of s !! k = Some (Some "amount") ↔ k = amount_column fs) ∧
        date_column fs ≠ description_column fs ∧
        date_column fs ≠ amount_column fs ∧
        description_column fs ≠ amount_column fs.
Proof.
  intros Hrec Hd Hc Ha Hloc.
  destruct (loop_succeeds (mkLocals ∅ "%m/%d/%Y") 0 (parts_of s) Hrec) as [st Hl].
  { intros t Hv. simpl. rewrite dom_empty_L, decide_False by apply not_elem_of_empty.
    fold (tags_of s). apply valid_fields_iff in Hv as [->|[->|[->| ->]]]; lia. }
  fold (enumerate (parts_of s)) in Hl.
  destruct (loop_Ok_recorded s st "date" Hl) as (d & Hpd & Htd); [done|lia|].
  destruct (loop_Ok_recorded s st "description" Hl) as (c & Hpc & Htc); [done|lia|].
  destruct (loop_Ok_recorded s st "amount" Hl) as (a & Hpa & Hta); [done|lia|].
  eexists. split; [by apply (parse_Ok_intro s st d c a)|]. simpl.
  repeat split; try (intros ->; done); try congruence.
  - intros Hk. apply (occurrences_unique "date" (tags_of s)); [lia|done..].
  - intros Hk. apply (occurrences_unique "description" (tags_of s)); [lia|done..].
  - intros Hk. apply (occurrences_unique "amount" (tags_of s)); [lia|done..].
Qed.

Lemma parse_well_formed_witness :
  ∃ fs, parse_format_string "{amount}, {_}, {Date:%d.%m.%Y} x, {_},{location}, {description}"
        = Ok fs ∧ date_column fs = 2 ∧ description_column fs = 5 ∧ amount_column fs = 0.
Proof.
  destruct (parse_well_formed
              "{amount}, {_}, {Date:%d.%m.%Y} x, {_},{location}, {description}")
    as (fs & Hfs & Hd & Hc & Ha & _).
  - reflexivity.
  - reflexivity.
  - reflexivity.
  - reflexivity.
  - vm_compute. lia.
  - exists fs. split; [exact Hfs|].
    split; [symmetry; apply Hd; reflexivity|].
    split; [symmetry; apply Hc; reflexivity|symmetry; apply Ha; reflexivity].
Defined.

(** C3: after a successful parse the segment at [date_column] is the
    date segment, and [date_format] is its sub-format when it has one and
    the default "%m/%d/%Y" when it has none. *)
Theorem parse_date_format (s : string) (fs : FormatSpec) :
  parse_format_string s = Ok fs →
  ∃ part id o,
    parts_of s !! date_column fs = Some part ∧
    field_pattern_match part = Some (id, o) ∧ lower id = "date" ∧
    date_format fs = match o with Some f => f | None => "%m/%d/%Y" end.
Proof.
  intros (st & Hl & Hd & _ & _ & _ & <-)%parse_Ok_inv.
  destruct (loop_date_fresh _ _ _ _ Hl) as [[Hn _]|(j & part & id & o & Hj & _ & Hp & Hm & Hlo & Hf)].
  - simpl. rewrite dom_empty_L. apply not_elem_of_empty.
  - exfalso. apply Hn, elem_of_dom. by rewrite Hd.
  - rewrite Hd in Hj. injection Hj as <-. rewrite Nat.sub_0_r in Hp.
    exists part, id, o. repeat split; try done; rewrite Hf; by destruct o.
Qed.

Lemma parse_date_format_witness :
  ∃ part id o,
    parts_of "{description}, {DATE:%d/%m/%y}, {amount}" !! 1 = Some part ∧
    field_pattern_match part = Some (id, o) ∧ lower id = "date" ∧
    "%d/%m/%y" = match o with Some f => f | None => "%m/%d/%Y" end.
Proof.
  apply (parse_date_format "{description}, {DATE:%d/%m/%y}, {amount}"
           (mkFormatSpec 1 "%d/%m/%y" 0 2 None true None)).
  vm_compute. reflexivity.
Defined.

(** C4, as the code has it: when a field tag occurs at segments [i < j],
    the segments before [j] all carry recognised tags and no field repeats
    among them (so [j] is the second occurrence and nothing fails before
    it), the parse raises "Duplicate field" for that tag at column [j]. *)
Theorem parse_duplicate_field (s t : string) (i j : nat) :
  i < j →
  tags_of s !! i = Some (Some t) → tags_of s !! j = Some (Some t) →
  t ∈ valid_fields →
  forallb recognised (take j (tags_of s)) = true →
  no_repeat (take j (tags_of s)) = true →
  parse_format_string s = Raise (DuplicateField t j).
Proof.
  intros Hij Hi Hj Hv Hrec Hrep.
  apply tags_of_lookup in Hj as (p & Hp & Ht).
  destruct (parse_first_error s j p Hp Hrec Hrep) as (st & Hdom & Hraise).
  apply Hraise, loop_body_duplicate; [done..|].
  apply Hdom. split; [intros ->; by apply skip_not_valid|].
  apply list_elem_of_lookup. exists i. rewrite lookup_take_lt by done. done.
Qed.

Lemma parse_duplicate_field_witness :
  parse_format_string "{date}, {date}, {description}, {amount}"
  = Raise (DuplicateField "date" 1).
Proof.
  apply (parse_duplicate_field "{date}, {date}, {description}, {amount}" "date" 0 1).
  - lia.
  - reflexivity.
  - reflexivity.
  - apply valid_fields_iff. left. reflexivity.
  - reflexivity.
  - reflexivity.
Defined.

(** C4 does not hold for every input in which a field occurs twice: here
    [date] occurs at segments 1 and 2, and the parse stops at segment 0. *)
Lemma duplicate_not_reached :
  tags_of "{color}, {date}, {date}" !! 1 = Some (Some "date") ∧
  tags_of "{color}, {date}, {date}" !! 2 = Some (Some "date") ∧
  parse_format_string "{color}, {date}, {date}"
  = Raise (UnknownField "color" 0 valid_fields) ∧
  parse_format_string "{color}, {date}, {date}" ≠ Raise (DuplicateField "date" 2).
Proof. repeat split; try (vm_compute; reflexivity). vm_compute. discriminate. Qed.

(** C5: when every segment carries a recognised tag, no field repeats and
    one of [date], [description], [amount] is absent, the parse raises
    "Missing required fields" with the required fields that no segment
    records. *)
Theorem parse_missing_required (s : string) :
  forallb recognised (tags_of s) = true →
  no_repeat (tags_of s) = true →
  occurrences "date" (tags_of s) = 0 ∨ occurrences "description" (tags_of s) = 0
  ∨ occurrences "amount" (tags_of s) = 0 →
  parse_format_string s
  = Raise (MissingRequired (required ∖ recorded_tags (tags_of s))).
Proof.
  intros Hrec Hrep Hlack.
  destruct (loop_succeeds (mkLocals ∅ "%m/%d/%Y") 0 (parts_of s) Hrec) as [st Hl].
  { intros t Hv. simpl. rewrite dom_empty_L, decide_False by apply not_elem_of_empty.
    pose proof (no_repeat_le _ _ Hrep Hv). unfold tags_of in *. lia. }
  fold (enumerate (parts_of s)) in Hl. rewrite (parse_loop_Ok _ _ Hl).
  assert (dom (field_positions st) = recorded_tags (tags_of s)) as ->.
  { apply set_eq. intros t. rewrite recorded_tags_iff, (loop_Ok_dom _ _ _ _ t Hl).
    simpl. rewrite dom_empty_L, elem_of_empty. unfold tags_of. tauto. }
  rewrite decide_True; [done|].
  assert (∃ t, t ∈ required ∧ occurrences t (tags_of s) = 0) as (t & Hreq & Ho).
  { destruct Hlack as [?|[?|?]]; eexists; (split; [apply required_iff|eassumption]);
      tauto. }
  intros Hempty. apply (not_elem_of_empty (C:=gset string) t). rewrite <-Hempty.
  apply elem_of_difference. split; [done|].
  rewrite recorded_tags_iff, occurrences_pos. lia.
Qed.

Lemma parse_missing_required_witness :
  parse_format_string "{description}, {amount}" = Raise (MissingRequired {["date"]}).
Proof.
  rewrite (parse_missing_required "{description}, {amount}").
  - vm_compute. reflexivity.
  - reflexivity.
  - reflexivity.
  - left. reflexivity.
Defined.

(** C6, as the code has it: when a segment matches the pattern with a tag
    that is neither the skip marker nor one of the four fields, and the
    segments before it all carry recognised tags with no field repeated,
    the parse raises "Unknown field" for that tag at that column, with the
    set of the four valid fields. *)
Theorem parse_unknown_field (s t : string) (k : nat) :
  tags_of s !! k = Some (Some t) →
  t ≠ "_" → t ∉ valid_fields →
  forallb recognised (take k (tags_of s)) = true →
  no_repeat (take k (tags_of s)) = true →
  parse_format_string s = Raise (UnknownField t k valid_fields).
Proof.
  intros Hk Hne Hv Hrec Hrep.
  apply tags_of_lookup in Hk as (p & Hp & Ht).
  destruct (parse_first_error s k p Hp Hrec Hrep) as (st & _ & Hraise).
  by apply Hraise, loop_body_unknown.
Qed.

Lemma parse_unknown_field_witness :
  parse_format_string "{color}, {description}, {amount}, {date}"
  = Raise (UnknownField "color" 0 {[ "date"; "description"; "amount"; "location" ]}).
Proof.
  apply (parse_unknown_field "{color}, {description}, {amount}, {date}" "color" 0).
  - reflexivity.
  - discriminate.
  - rewrite valid_fields_iff. intros [H|[H|[H|H]]]; discriminate H.
  - reflexivity.
  - reflexivity.
Defined.

(** C6 does not hold for every input with such a segment: here segment 2
    carries the unknown tag [color], and the parse stops at segment 1. *)
Lemma unknown_not_reached :
  tags_of "{date}, {date}, {color}" !! 2 = Some (Some "color") ∧
  parse_format_string "{date}, {date}, {color}" = Raise (DuplicateField "date" 1) ∧
  parse_format_string "{date}, {date}, {color}"
  ≠ Raise (UnknownField "color" 2 valid_fields).
Proof. repeat split; try (vm_compute; reflexivity). vm_compute. discriminate. Qed.

(** ** Editing a segment *)

Lemma render_not_nil (segs : list string) i x : segs !! i = Some x → segs ≠ [].
Proof. by destruct segs. Qed.

(** Replacing a segment by one with the same [view] leaves the outcome,
    result or exception, as it was. *)
Lemma parse_replace_segment (segs : list string) (i : nat) (x x' : string) :
  Forall (λ s, str_all not_comma s = true) segs →
  segs !! i = Some x → str_all not_comma x' = true →
  view (strip x') = view (strip x) →
  parse_format_string (join "," (<[i := x']> segs))
  = parse_format_string (join "," segs).
Proof.
  intros Hall Hi Hx' Hview. apply parse_view.
  rewrite !parts_of_join; [|by eapply render_not_nil|done| |by apply Forall_insert].
  2:{ intros E. apply (f_equal length) in E. rewrite length_insert in E.
      by destruct segs. }
  rewrite !list_fmap_insert, Hview. apply list_insert_id.
  by rewrite !list_lookup_fmap, Hi.
Qed.

Lemma view_render g :
  wf_segment g = true → view (strip (render g)) = inr (lower (ident g), subformat g).
Proof. intros Hg. unfold view. by rewrite (field_pattern_match_render _ Hg). Qed.


Lemma wf_with_trail g tr :
  wf_segment g = true → str_all not_comma tr = true →
  wf_segment (with_trail g tr) = true.
Proof. unfold wf_segment. simpl. rewrite !andb_true_iff. tauto. Qed.

(** C8: the pattern is anchored at the start of the trimmed segment only:
    whatever text follows the closing brace of a segment that matches,
    the parse gives the same result (the same [FormatSpec] for a valid
    format string) as with any other text, or none, in that place. *)
Theorem parse_ignores_trailing (segs : list string) (i : nat) (g : segment)
    (extra : string) :
  Forall (λ s, str_all not_comma s = true) segs →
  segs !! i = Some (render g) → wf_segment g = true →
  str_all not_comma extra = true →
  parse_format_string (join "," (<[i := render (with_trail g extra)]> segs))
  = parse_format_string (join "," segs).
Proof.
  intros Hall Hi Hg Hextra. pose proof (wf_with_trail _ _ Hg Hextra) as Hg'.
  apply (parse_replace_segment segs i (render g)); [done..| |].
  - by apply str_all_render.
  - by rewrite !view_render.
Qed.

Lemma parse_ignores_trailing_witness :
  parse_format_string "{date:%Y-%m-%d}, {description}!! junk [x] ,{amount}"
  = Ok (mkFormatSpec 0 "%Y-%m-%d" 1 2 None true None).
Proof.
  change (parse_format_string
            (join "," (<[1 := render (with_trail (mkSegment " " "description" None "")
                                        "!! junk [x] ")]>
                         ["{date:%Y-%m-%d}"; " {description}"; "{amount}"]))
          = Ok (mkFormatSpec 0 "%Y-%m-%d" 1 2 None true None)).
  rewrite parse_ignores_trailing.
  - vm_compute. reflexivity.
  - repeat constructor.
  - reflexivity.
  - reflexivity.
  - reflexivity.
Defined.



(** ** Inserting a skip segment *)

Lemma parse_Ok_eq s fs :
  parse_format_string s = Ok fs →
  ∃ st d c a,
    loop (mkLocals ∅ "%m/%d/%Y") (enumerate (parts_of s)) = Ok st ∧
    field_positions st !! "date" = Some d ∧
    field_positions st !! "description" = Some c ∧
    field_positions st !! "amount" = Some a ∧
    fs = mkFormatSpec d (cur_date_format st) c a
           (field_positions st !! "location") true None.
Proof.
  intros H. destruct (parse_Ok_inv _ _ H) as (st & Hl & Hd & Hc & Ha & _).
  exists st, (date_column fs), (description_column fs), (amount_column fs).
  repeat split; try done.
  rewrite (parse_Ok_intro _ _ _ _ _ Hl Hd Hc Ha) in H. by injection H as <-.
Qed.

(** The loop commutes with a renumbering of the indices it is fed: the
    checks read the keys of [field_positions], never the indices. *)
Lemma loop_renumber (f : nat → nat) st its st' :
  loop st its = Ok st' →
  loop (renumber f st) (prod_map f id <$> its) = Ok (renumber f st').
Proof.
  revert st; induction its as [|[i p] its IH]; intros st.
  { by intros [= <-]. }
  cbn [loop fmap list_fmap prod_map fst snd id].
  destruct (loop_body st (i, p)) as [st1|] eqn:Hb; simpl; [|done].
  intros Hl. apply loop_body_Ok in Hb as (id & o & Hm & [[E ->]|(Hv & Hd & ->)]).
  - rewrite loop_body_skip; [by apply IH|].
    apply segment_tag_Some. by exists id, o.
  - rewrite (loop_body_record _ _ _ _ _ Hm Hv) by (simpl; by rewrite dom_fmap_L).
    simpl. rewrite <-fmap_insert. by apply (IH _ Hl).
Qed.

Lemma enumerate_from_shift_lt {A} k i (l : list A) :
  i + length l ≤ k → prod_map (shift k) id <$> enumerate_from i l = enumerate_from i l.
Proof.
  revert i; induction l as [|x l IH]; intros i Hk; simpl in *; [done|].
  rewrite IH by lia. unfold shift. by rewrite decide_False by lia.
Qed.

Lemma enumerate_from_shift_ge {A} k i (l : list A) :
  k ≤ i → prod_map (shift k) id <$> enumerate_from i l = enumerate_from (S i) l.
Proof.
  revert i; induction l as [|x l IH]; intros i Hk; simpl in *; [done|].
  rewrite IH by lia. unfold shift. by rewrite decide_True by lia.
Qed.

(** A skip segment put in as segment [k] costs the loop nothing but the
    index: the later segments are recorded one column further. *)
Lemma loop_insert_skip k q ps st' :
  segment_tag q = Some "_" →
  loop (mkLocals ∅ "%m/%d/%Y") (enumerate ps) = Ok st' →
  loop (mkLocals ∅ "%m/%d/%Y") (enumerate (insert_at k q ps))
  = Ok (renumber (shift k) st').
Proof.
  intros Hq Hl. apply (loop_renumber (shift k)) in Hl.
  unfold renumber in Hl at 1. simpl in Hl. rewrite fmap_empty in Hl.
  rewrite <-Hl. unfold enumerate, insert_at.
  rewrite <-(take_drop k ps) at 3.
  rewrite !enumerate_from_app, fmap_app, !loop_app. simpl.
  rewrite (enumerate_from_shift_lt k 0 (take k ps))
    by (simpl; rewrite length_take; apply Nat.le_min_l).
  destruct (loop _ (enumerate_from 0 (take k ps))) as [st1|]; simpl; [|done].
  rewrite loop_body_skip by done. simpl.
  destruct (decide (k ≤ length ps)).
  - rewrite length_take_le by done. by rewrite enumerate_from_shift_ge.
  - by rewrite drop_ge by lia.
Qed.

Lemma parse_insert_skip (segs : list string) (k : nat) (g : segment)
    (fs : FormatSpec) :
  Forall (λ s, str_all not_comma s = true) segs →
  wf_segment g = true → ident g = "_" →
  parse_format_string (join "," segs) = Ok fs →
  Forall (λ s, str_all not_comma s = true) (insert_at k (render g) segs) ∧
  parse_format_string (join "," (insert_at k (render g) segs))
  = Ok (shift_spec k fs).
Proof.
  intros Hall Hg Hid Hparse.
  assert (Forall (λ s, str_all not_comma s = true) (insert_at k (render g) segs))
    as Hall'.
  { unfold insert_at. apply Forall_app. split; [by apply Forall_take|].
    apply Forall_cons. split; [by apply str_all_render|by apply Forall_drop]. }
  split; [done|].
  assert (segs ≠ []) as Hne by (intros ->; by vm_compute in Hparse).
  destruct (parse_Ok_eq _ _ Hparse) as (st & d & c & a & Hl & Hd & Hc & Ha & ->).
  rewrite (parts_of_join _ Hne Hall) in Hl.
  assert (segment_tag (strip (render g)) = Some "_") as Hq.
  { unfold segment_tag. rewrite (field_pattern_match_render _ Hg). simpl.
    by rewrite Hid. }
  apply (loop_insert_skip k _ _ _ Hq) in Hl.
  assert (parts_of (join "," (insert_at k (render g) segs))
          = insert_at k (strip (render g)) (strip <$> segs)) as Hparts.
  { rewrite parts_of_join; [|unfold insert_at; by destruct (take k segs)|done].
    unfold insert_at. by rewrite fmap_app, fmap_cons, fmap_take, fmap_drop. }
  rewrite <-Hparts in Hl.
  rewrite (parse_Ok_intro _ _ (shift k d) (shift k c) (shift k a) Hl);
    simpl; rewrite ?lookup_fmap, ?Hd, ?Hc, ?Ha; done.
Qed.

(** C10: skip segments may be put in anywhere in a format string that
    parses, in any number: the duplicate check never sees them, the parse
    still succeeds with the same date format, and each of them moves the
    columns at or after its place up by one. *)
Theorem parse_skips_inserted (segs : list string) (ks : list (nat * segment))
    (fs : FormatSpec) :
  Forall (λ s, str_all not_comma s = true) segs →
  forallb (λ kg, is_skip kg.2) ks = true →
  parse_format_string (join "," segs) = Ok fs →
  parse_format_string (join "," (insert_skips ks segs)) = Ok (shift_all ks fs).
Proof.
  intros Hall Hks Hparse.
  enough (Forall (λ s, str_all not_comma s = true) (insert_skips ks segs) ∧
          parse_format_string (join "," (insert_skips ks segs))
          = Ok (shift_all ks fs)) as [_ H] by done.
  induction ks as [|[k g] ks IH]; simpl in *; [done|].
  apply andb_true_iff in Hks as [Hg Hks]. destruct (IH Hks) as [Hall' Hparse'].
  apply andb_true_iff in Hg as [Hg Hid]. apply bool_decide_eq_true in Hid.
  by apply parse_insert_skip.
Qed.

Lemma parse_skips_inserted_witness :
  parse_format_string "{_},{date}, {_}, {description},{_:x} , {_}, {amount}"
  = Ok (mkFormatSpec 1 "%m/%d/%Y" 3 6 None true None).
Proof.
  change (parse_format_string
            (join ","
               (insert_skips [(0, mkSegment "" "_" None "");
                              (3, mkSegment "" "_" (Some "x") " ")]
                  ["{date}"; " {_}"; " {description}"; " {_}"; " {amount}"]))
          = Ok (shift_all [(0, mkSegment "" "_" None "");
                           (3, mkSegment "" "_" (Some "x") " ")]
                  (mkFormatSpec 0 "%m/%d/%Y" 2 4 None true None))).
  apply parse_skips_inserted.
  - repeat constructor.
  - reflexivity.
  - vm_compute. reflexivity.
Defined.

(** ** The first example of the docstring *)

Example parse_three_columns :
  parse_format_string "{date:%m/%d/%Y}, {description}, {amount}"
  = Ok (mkFormatSpec 0 "%m/%d/%Y" 1 2 None true None).
Proof. vm_compute. reflexivity. Qed.

(** * Further properties of the module *)

(** ** What a finished loop says about the segments *)

(** A loop that ran to its end met recognised tags only, and every field
    tag as many times as it recorded it: once or never. *)
Lemma loop_Ok_counts st i ps st' :
  loop st (enumerate_from i ps) = Ok st' →
  forallb recognised (segment_tag <$> ps) = true ∧
  ∀ t, t ≠ "_" →
       occurrences t (segment_tag <$> ps) + recorded t st = recorded t st'.
Proof.
  revert st i; induction ps as [|p ps IH]; intros st i.
  { intros [= <-]. split; [done|]. intros t _. unfold occurrences. simpl. lia. }
  rewrite loop_cons. destruct (loop_body st (i, p)) as [st1|] eqn:Hb; simpl; [|done].
  intros Hl. destruct (IH _ _ Hl) as [Hrec Hocc]. clear IH Hl.
  apply loop_body_Ok in Hb as (id & o & Hm & Hcase).
  assert (segment_tag p = Some (lower id)) as Htag.
  { apply segment_tag_Some. by exists id, o. }
  change (list_fmap string (option string) segment_tag ps) with (segment_tag <$> ps).
  rewrite Htag. destruct Hcase as [[E ->]|(Hv & Hd & ->)].
  - split.
    + rewrite Hrec, andb_true_r, E. done.
    + intros t Ht. rewrite occurrences_cons, E.
      rewrite decide_False by congruence. by apply Hocc.
  - split.
    + rewrite Hrec, andb_true_r. apply orb_true_iff. right.
      by apply bool_decide_eq_true.
    + intros t Ht. rewrite occurrences_cons, <-(Hocc t Ht). unfold recorded. simpl.
      rewrite dom_insert_L. destruct (decide (t = lower id)) as [->|Hne].
      * rewrite decide_True by done. rewrite (decide_False (P:=_ ∈ dom _)) by done.
        rewrite decide_True by (by apply elem_of_union_l, elem_of_singleton). lia.
      * rewrite decide_False by congruence.
        destruct (decide (t ∈ dom (field_positions st))).
        -- rewrite decide_True by (by apply elem_of_union_r). lia.
        -- rewrite decide_False; [lia|].
           rewrite elem_of_union, elem_of_singleton. tauto.
Qed.

Lemma loop_Ok_counts_init ps st :
  loop (mkLocals ∅ "%m/%d/%Y") (enumerate ps) = Ok st →
  forallb recognised (segment_tag <$> ps) = true ∧
  no_repeat (segment_tag <$> ps) = true ∧
  ∀ t, t ≠ "_" → occurrences t (segment_tag <$> ps) = recorded t st.
Proof.
  intros Hl. destruct (loop_Ok_counts _ _ _ _ Hl) as [Hrec Hocc].
  assert (∀ t, t ≠ "_" → occurrences t (segment_tag <$> ps) = recorded t st) as H.
  { intros t Ht. rewrite <-(Hocc t Ht). unfold recorded at 1. simpl.
    rewrite dom_empty_L, decide_False by apply not_elem_of_empty. lia. }
  split; [done|]. split; [|done].
  unfold no_repeat. simpl. rewrite !andb_true_iff, !bool_decide_eq_true.
  repeat split; try done; rewrite H by done; unfold recorded; case_decide; lia.
Qed.

Lemma recorded_1 t st j : field_positions st !! t = Some j → recorded t st = 1.
Proof.
  intros H. unfold recorded. rewrite decide_True; [done|].
  apply elem_of_dom. by rewrite H.
Qed.

Lemma recorded_le t st : recorded t st ≤ 1.
Proof. unfold recorded. case_decide; lia. Qed.

(** ** Success *)

(** X1: a format string that parses is well formed: every segment matches
    the pattern with a recognised tag, [date], [description] and [amount]
    occur exactly once and [location] at most once. *)
Theorem parse_Ok_well_formed (s : string) (fs : FormatSpec) :
  parse_format_string s = Ok fs →
  forallb recognised (tags_of s) = true ∧
  occurrences "date" (tags_of s) = 1 ∧
  occurrences "description" (tags_of s) = 1 ∧
  occurrences "amount" (tags_of s) = 1 ∧
  occurrences "location" (tags_of s) ≤ 1.
Proof.
  intros (st & Hl & Hd & Hc & Ha & _)%parse_Ok_inv.
  destruct (loop_Ok_counts_init _ _ Hl) as (Hrec & _ & Hocc).
  fold (tags_of s) in *. split; [done|].
  rewrite !Hocc by done.
  rewrite (recorded_1 _ _ _ Hd), (recorded_1 _ _ _ Hc), (recorded_1 _ _ _ Ha).
  repeat split. apply recorded_le.
Qed.

Lemma parse_Ok_well_formed_witness :
  forallb recognised (tags_of "{Amount}, {_}, {date:%Y}, {_}, {description}") = true ∧
  occurrences "date" (tags_of "{Amount}, {_}, {date:%Y}, {_}, {description}") = 1 ∧
  occurrences "description" (tags_of "{Amount}, {_}, {date:%Y}, {_}, {description}") = 1 ∧
  occurrences "amount" (tags_of "{Amount}, {_}, {date:%Y}, {_}, {description}") = 1 ∧
  occurrences "location" (tags_of "{Amount}, {_}, {date:%Y}, {_}, {description}") ≤ 1.
Proof.
  apply (parse_Ok_well_formed "{Amount}, {_}, {date:%Y}, {_}, {description}"
           (mkFormatSpec 2 "%Y" 4 0 None true None)).
  vm_compute. reflexivity.
Defined.

(** X2: after a successful parse [location_column] is the index of the
    [location] segment when there is one, and [None] exactly when no
    segment carries that tag; it differs from the three required columns. *)
Theorem parse_Ok_location (s : string) (fs : FormatSpec) :
  parse_format_string s = Ok fs →
  (∀ j, location_column fs = Some j ↔ tags_of s !! j = Some (Some "location")) ∧
  (location_column fs = None ↔ occurrences "location" (tags_of s) = 0) ∧
  location_column fs ≠ Some (date_column fs) ∧
  location_column fs ≠ Some (description_column fs) ∧
  location_column fs ≠ Some (amount_column fs).
Proof.
  intros (st & Hl & Hd & Hc & Ha & Hloc & _)%parse_Ok_inv.
  destruct (loop_Ok_counts_init _ _ Hl) as (_ & Hrep & Hocc).
  fold (tags_of s) in *. rewrite <-Hloc.
  assert (∀ t j, field_positions st !! t = Some j → tags_of s !! j = Some (Some t))
    as Hpos.
  { intros t j Hj. destruct (loop_Ok_position _ _ _ _ _ _ Hl Hj) as [H|[_ H]]; [done|].
    by rewrite Nat.sub_0_r in H. }
  assert (∀ t j j', field_positions st !! t = Some j →
                    field_positions st !! "location" = Some j' →
                    t ≠ "location" → Some j' ≠ Some j) as Hdiff.
  { intros t j j' Hj Hj' Hne [= ->]. apply Hpos in Hj, Hj'. congruence. }
  split; [|split; [|repeat split]].
  - intros j. split; [apply Hpos|]. intros Hj.
    assert ("location" ∈ dom (field_positions st)) as [j' Hj']%elem_of_dom.
    { apply (loop_Ok_dom _ _ _ _ _ Hl). right. split; [done|].
      apply list_elem_of_lookup. by exists j. }
    rewrite Hj'. f_equal.
    apply (occurrences_unique "location" (tags_of s)); [|by apply Hpos|done].
    rewrite Hocc by done. apply recorded_le.
  - rewrite Hocc by done. unfold recorded.
    rewrite <-not_elem_of_dom. case_decide; split; (done || lia).
  - destruct (field_positions st !! "location") eqn:E; [|done].
    by apply (Hdiff "date").
  - destruct (field_positions st !! "location") eqn:E; [|done].
    by apply (Hdiff "description").
  - destruct (field_positions st !! "location") eqn:E; [|done].
    by apply (Hdiff "amount").
Qed.

Lemma parse_Ok_location_witness :
  tags_of "{date}, {location}, {description}, {amount}" !! 1
  = Some (Some "location").
Proof.
  apply (parse_Ok_location "{date}, {location}, {description}, {amount}"
           (mkFormatSpec 0 "%m/%d/%Y" 2 3 (Some 1) true None)).
  - vm_compute. reflexivity.
  - reflexivity.
Defined.

(** X3: the columns of a successful parse index segments of the format
    string: each is below the number of comma-separated segments. *)
Theorem parse_Ok_columns_in_range (s : string) (fs : FormatSpec) :
  parse_format_string s = Ok fs →
  date_column fs < length (split "," s) ∧
  description_column fs < length (split "," s) ∧
  amount_column fs < length (split "," s) ∧
  ∀ j, location_column fs = Some j → j < length (split "," s).
Proof.
  intros (st & Hl & Hd & Hc & Ha & Hloc & _)%parse_Ok_inv. rewrite <-Hloc.
  assert (∀ t j, field_positions st !! t = Some j → j < length (split "," s)) as H.
  { intros t j Hj. destruct (loop_Ok_position _ _ _ _ _ _ Hl Hj) as [?|[_ Hlk]]; [done|].
    apply lookup_lt_Some in Hlk. unfold parts_of in Hlk.
    rewrite !length_fmap in Hlk. lia. }
  split; [by apply (H "date")|]. split; [by apply (H "description")|].
  split; [by apply (H "amount")|]. intros j. apply H.
Qed.

Lemma parse_Ok_columns_in_range_witness :
  0 < length (split "," "{date}, {location}, {description}, {amount}") ∧
  2 < length (split "," "{date}, {location}, {description}, {amount}") ∧
  3 < length (split "," "{date}, {location}, {description}, {amount}") ∧
  ∀ j, Some 1 = Some j → j < length (split "," "{date}, {location}, {description}, {amount}").
Proof.
  apply (parse_Ok_columns_in_range "{date}, {location}, {description}, {amount}"
           (mkFormatSpec 0 "%m/%d/%Y" 2 3 (Some 1) true None)).
  vm_compute. reflexivity.
Defined.

(** ** Errors *)

(** X4: when a segment does not match the pattern and the segments before
    it all carry recognised tags with no field repeated, the parse raises
    "Invalid format" with the index and the stripped text of that
    segment. *)
Theorem parse_invalid_format (s part : string) (k : nat) :
  parts_of s !! k = Some part →
  field_pattern_match part = None →
  forallb recognised (take k (tags_of s)) = true →
  no_repeat (take k (tags_of s)) = true →
  parse_format_string s = Raise (InvalidFormat k part).
Proof.
  intros Hp Hm Hrec Hrep.
  destruct (parse_first_error s k part Hp Hrec Hrep) as (st & _ & Hraise).
  apply Hraise, loop_body_invalid. by apply segment_tag_None.
Qed.

Lemma parse_invalid_format_witness :
  parse_format_string "{date}, {amount},  description  , {location}"
  = Raise (InvalidFormat 2 "description").
Proof.
  apply (parse_invalid_format "{date}, {amount},  description  , {location}"
           "description" 2); reflexivity.
Defined.

(** A loop that raises consumed the segments before some index without
    error and raised in the iteration on the segment at that index. *)
Lemma loop_Raise_split st i ps e :
  loop st (enumerate_from i ps) = Raise e →
  ∃ k p st1, ps !! k = Some p ∧
             loop st (enumerate_from i (take k ps)) = Ok st1 ∧
             loop_body st1 (i + k, p) = Raise e.
Proof.
  revert st i; induction ps as [|p ps IH]; intros st i; [done|].
  rewrite loop_cons. destruct (loop_body st (i, p)) as [st1|e1] eqn:Hb; simpl.
  - intros (k & p' & st2 & Hk & Hl & Hr)%IH. exists (S k), p', st2.
    split; [done|]. split.
    + change (take (S k) (p :: ps)) with (p :: take k ps).
      rewrite loop_cons, Hb. done.
    + by replace (i + S k) with (S i + k) by lia.
  - intros [= ->]. exists 0, p, st. rewrite Nat.add_0_r. done.
Qed.

Lemma loop_body_Raise st idx part e :
  loop_body st (idx, part) = Raise e →
  (field_pattern_match part = None ∧ e = InvalidFormat idx part) ∨
  ∃ t, segment_tag part = Some t ∧ t ≠ "_" ∧
       (((t ∉ valid_fields) ∧ e = UnknownField t idx valid_fields) ∨
        (t ∈ valid_fields ∧ t ∈ dom (field_positions st) ∧
         e = DuplicateField t idx)).
Proof.
  destruct (field_pattern_match part) as [[id o]|] eqn:Hm.
  2:{ rewrite loop_body_invalid by (by apply segment_tag_None).
      intros [= <-]. by left. }
  assert (segment_tag part = Some (lower id)) as Htag.
  { apply segment_tag_Some. by exists id, o. }
  intros H. right. exists (lower id). split; [done|].
  destruct (decide (lower id = "_")) as [E|E].
  { rewrite loop_body_skip in H by congruence. done. }
  split; [done|]. destruct (decide (lower id ∈ valid_fields)) as [Hv|Hv].
  - right. split; [done|].
    destruct (decide (lower id ∈ dom (field_positions st))) as [Hd|Hd].
    + rewrite (loop_body_duplicate _ _ _ _ Htag Hv Hd) in H. by injection H as <-.
    + by rewrite (loop_body_record _ _ _ _ _ Hm Hv Hd) in H.
  - left. split; [done|].
    rewrite (loop_body_unknown _ _ _ _ Htag E Hv) in H. by injection H as <-.
Qed.

(** An exception of [parse_format_string] other than "Missing required
    fields" is raised by the iteration on some segment [k], after the
    segments before it were consumed: these carry recognised tags with no
    field repeated, and the fields recorded so far are their tags. *)
Lemma parse_Raise_at s e :
  parse_format_string s = Raise e →
  (∀ m, e ≠ MissingRequired m) →
  ∃ k p st1,
    parts_of s !! k = Some p ∧ loop_body st1 (k, p) = Raise e ∧
    forallb recognised (take k (tags_of s)) = true ∧
    no_repeat (take k (tags_of s)) = true ∧
    ∀ t, t ∈ dom (field_positions st1) → ∃ i, i < k ∧ tags_of s !! i = Some (Some t).
Proof.
  intros H Hnm.
  destruct (loop (mkLocals ∅ "%m/%d/%Y") (enumerate (parts_of s))) as [st|e1] eqn:Hl.
  { rewrite (parse_loop_Ok _ _ Hl) in H. case_decide as Hmiss.
    { injection H as <-. by destruct (Hnm (required ∖ dom (field_positions st))). }
    exfalso. apply required_present in Hmiss as ([d Hd] & [c Hc] & [a Ha]).
    unfold getitem in H. by rewrite Hd, Hc, Ha in H. }
  rewrite (parse_loop_Raise _ _ Hl) in H. injection H as ->.
  apply loop_Raise_split in Hl as (k & p & st1 & Hk & Hl & Hb).
  exists k, p, st1. split; [done|]. split; [done|].
  destruct (loop_Ok_counts_init _ _ Hl) as (Hrec & Hrep & _).
  unfold tags_of. rewrite <-fmap_take. split; [done|]. split; [done|].
  intros t Ht. apply (loop_Ok_dom _ _ _ _ _ Hl) in Ht as [Ht|[_ Ht]].
  { simpl in Ht. rewrite dom_empty_L in Ht. by apply elem_of_empty in Ht. }
  apply list_elem_of_lookup in Ht as [i Hi]. exists i.
  pose proof (lookup_lt_Some _ _ _ Hi) as Hlt.
  rewrite length_fmap, length_take in Hlt.
  rewrite fmap_take, lookup_take_lt in Hi by lia. split; [lia|done].
Qed.

Lemma tags_of_lookup_part s k p :
  parts_of s !! k = Some p → tags_of s !! k = Some (segment_tag p).
Proof. intros H. unfold tags_of. by rewrite list_lookup_fmap, H. Qed.

(** X5: an "Invalid format" error names a real segment: the text it
    quotes is the stripped segment at the index it gives, that segment does
    not match the pattern, and no earlier segment is at fault. *)
Theorem parse_InvalidFormat_inv (s part : string) (k : nat) :
  parse_format_string s = Raise (InvalidFormat k part) →
  parts_of s !! k = Some part ∧ field_pattern_match part = None ∧
  forallb recognised (take k (tags_of s)) = true ∧
  no_repeat (take k (tags_of s)) = true.
Proof.
  intros (k' & p & st1 & Hp & Hb & Hrec & Hrep & _)%parse_Raise_at; [|done].
  apply loop_body_Raise in Hb as [[Hm [= -> ->]]|(t & _ & _ & [[_ ?]|(_ & _ & ?)])];
    done.
Qed.

Lemma parse_InvalidFormat_inv_witness :
  parts_of "{date}, {amount:} , {description}" !! 1 = Some "{amount:}" ∧
  field_pattern_match "{amount:}" = None ∧
  forallb recognised (take 1 (tags_of "{date}, {amount:} , {description}")) = true ∧
  no_repeat (take 1 (tags_of "{date}, {amount:} , {description}")) = true.
Proof.
  apply (parse_InvalidFormat_inv "{date}, {amount:} , {description}").
  vm_compute. reflexivity.
Defined.

(** X6: an "Unknown field" error names a real segment: the segment at the
    index it gives matches the pattern with the tag it names, the tag is
    neither the skip marker nor a valid field, the set it lists is the set
    of the four valid fields, and no earlier segment is at fault. *)
Theorem parse_UnknownField_inv (s t : string) (k : nat) (vf : gset string) :
  parse_format_string s = Raise (UnknownField t k vf) →
  vf = valid_fields ∧ tags_of s !! k = Some (Some t) ∧
  t ≠ "_" ∧ (t ∉ valid_fields) ∧
  forallb recognised (take k (tags_of s)) = true ∧
  no_repeat (take k (tags_of s)) = true.
Proof.
  intros (k' & p & st1 & Hp & Hb & Hrec & Hrep & _)%parse_Raise_at; [|done].
  apply tags_of_lookup_part in Hp.
  apply loop_body_Raise in Hb
    as [[_ ?]|(t' & Ht & Hne & [[Hv [= -> -> ->]]|(_ & _ & ?)])]; try done.
  by rewrite Ht in Hp.
Qed.

Lemma parse_UnknownField_inv_witness :
  valid_fields = valid_fields ∧
  tags_of "{date}, {Payee}, {amount}" !! 1 = Some (Some "payee") ∧
  "payee" ≠ "_" ∧ ("payee" ∉ valid_fields) ∧
  forallb recognised (take 1 (tags_of "{date}, {Payee}, {amount}")) = true ∧
  no_repeat (take 1 (tags_of "{date}, {Payee}, {amount}")) = true.
Proof.
  apply (parse_UnknownField_inv "{date}, {Payee}, {amount}").
  vm_compute. reflexivity.
Defined.

(** X7: a "Duplicate field" error names a real repetition: the segment at
    the index it gives carries the valid field it names, an earlier segment
    carries the same field, and up to that index no other segment is at
    fault (so the index is that of the second occurrence). *)
Theorem parse_DuplicateField_inv (s t : string) (k : nat) :
  parse_format_string s = Raise (DuplicateField t k) →
  tags_of s !! k = Some (Some t) ∧ t ∈ valid_fields ∧
  (∃ i, i < k ∧ tags_of s !! i = Some (Some t)) ∧
  forallb recognised (take k (tags_of s)) = true ∧
  no_repeat (take k (tags_of s)) = true.
Proof.
  intros (k' & p & st1 & Hp & Hb & Hrec & Hrep & Hdom)%parse_Raise_at; [|done].
  apply tags_of_lookup_part in Hp.
  apply loop_body_Raise in Hb
    as [[_ ?]|(t' & Ht & Hne & [[_ ?]|(Hv & Hd & [= -> ->])])]; try done.
  rewrite Ht in Hp. repeat split; try done. by apply Hdom.
Qed.

Lemma parse_DuplicateField_inv_witness :
  tags_of "{date}, {_}, {amount}, {DATE:%Y}" !! 3 = Some (Some "date") ∧
  "date" ∈ valid_fields ∧
  (∃ i, i < 3 ∧ tags_of "{date}, {_}, {amount}, {DATE:%Y}" !! i = Some (Some "date")) ∧
  forallb recognised (take 3 (tags_of "{date}, {_}, {amount}, {DATE:%Y}")) = true ∧
  no_repeat (take 3 (tags_of "{date}, {_}, {amount}, {DATE:%Y}")) = true.
Proof.
  apply (parse_DuplicateField_inv "{date}, {_}, {amount}, {DATE:%Y}").
  vm_compute. reflexivity.
Defined.

(** X8: a "Missing required fields" error is raised only for a format
    string whose segments are all in order (recognised tags, no field
    repeated); the set it carries is not empty and holds exactly the
    required fields that no segment records. *)
Theorem parse_MissingRequired_inv (s : string) (m : gset string) :
  parse_format_string s = Raise (MissingRequired m) →
  forallb recognised (tags_of s) = true ∧ no_repeat (tags_of s) = true ∧
  m = required ∖ recorded_tags (tags_of s) ∧ m ≠ ∅.
Proof.
  intros H.
  destruct (loop (mkLocals ∅ "%m/%d/%Y") (enumerate (parts_of s))) as [st|e1] eqn:Hl.
  2:{ rewrite (parse_loop_Raise _ _ Hl) in H. injection H as ->.
      by apply loop_Raise_kind in Hl. }
  destruct (loop_Ok_counts_init _ _ Hl) as (Hrec & Hrep & _).
  fold (tags_of s) in *. split; [done|]. split; [done|].
  assert (dom (field_positions st) = recorded_tags (tags_of s)) as Hdom.
  { apply set_eq. intros t. rewrite recorded_tags_iff, (loop_Ok_dom _ _ _ _ t Hl).
    simpl. rewrite dom_empty_L, elem_of_empty. unfold tags_of. tauto. }
  rewrite (parse_loop_Ok _ _ Hl), Hdom in H. case_decide as Hmiss.
  - by injection H as <-.
  - rewrite <-Hdom in Hmiss.
    apply required_present in Hmiss as ([d Hd] & [c Hc] & [a Ha]).
    unfold getitem in H. by rewrite Hd, Hc, Ha in H.
Qed.

Lemma parse_MissingRequired_inv_witness :
  forallb recognised (tags_of "{_}, {amount}, {location}") = true ∧
  no_repeat (tags_of "{_}, {amount}, {location}") = true ∧
  {[ "date"; "description" ]}
  = required ∖ recorded_tags (tags_of "{_}, {amount}, {location}") ∧
  {[ "date"; "description" ]} ≠ (∅ : gset string).
Proof.
  apply (parse_MissingRequired_inv "{_}, {amount}, {location}").
  vm_compute. reflexivity.
Defined.

(** X9: on no input does [parse_format_string] raise a [KeyError] (the
    three look-ups come after the check for missing fields) or the
    [ValueError] of the guard [if not parts]; a result always has
    [has_header] set and no [source_name]. *)
Theorem parse_outcomes (s : string) :
  (∀ k, parse_format_string s ≠ Raise (KeyError k)) ∧
  parse_format_string s ≠ Raise EmptyFormatString ∧
  (∀ fs, parse_format_string s = Ok fs →
         has_header fs = true ∧ source_name fs = None).
Proof.
  split; [|split].
  - intros k H. by apply parse_Raise_kind in H.
  - intros H. by apply parse_Raise_kind in H.
  - intros fs (st & d & c & a & _ & _ & _ & _ & ->)%parse_Ok_eq. done.
Qed.

(** ** White space and sub-formats *)

Lemma lstrip_space w : str_all isspace w = true → lstrip w = "".
Proof.
  induction w as [|c w IH]; simpl; [done|]. intros [-> ?]%andb_true_iff. auto.
Qed.

Lemma rstrip_space_r s w : str_all isspace w = true → rstrip (s +:+ w) = rstrip s.
Proof.
  intros Hw. induction s as [|c s IH]; simpl; [|by rewrite IH].
  induction w as [|d w IHw]; simpl in *; [done|].
  apply andb_true_iff in Hw as [Hd Hw]. by rewrite (IHw Hw), Hd.
Qed.

Lemma strip_space_r s w : str_all isspace w = true → strip (s +:+ w) = strip s.
Proof.
  intros Hw. unfold strip. induction s as [|c s IH].
  - simpl. by rewrite (lstrip_space _ Hw).
  - change (String c s +:+ w) with (String c (s +:+ w)).
    change (lstrip (String c (s +:+ w)))
      with (if isspace c then lstrip (s +:+ w) else String c (s +:+ w)).
    change (lstrip (String c s)) with (if isspace c then lstrip s else String c s).
    destruct (isspace c); [done|]. apply (rstrip_space_r (String c s) w Hw).
Qed.

Lemma strip_pad w1 s w2 :
  str_all isspace w1 = true → str_all isspace w2 = true →
  strip (w1 +:+ s +:+ w2) = strip s.
Proof.
  intros H1 H2. unfold strip. rewrite (lstrip_app _ _ H1).
  by apply strip_space_r.
Qed.

Lemma space_no_comma w : str_all isspace w = true → str_all not_comma w = true.
Proof.
  induction w as [|c w IH]; simpl; [done|]. intros [Hc Hw]%andb_true_iff.
  rewrite (IH Hw), andb_true_r. by destruct c as [[] [] [] [] [] [] [] []].
Qed.

(** X10: white space around a segment does not count: with any white
    space put before and after a segment the parse has the same outcome. *)
Theorem parse_ignores_padding (segs : list string) (i : nat) (x w1 w2 : string) :
  Forall (λ s, str_all not_comma s = true) segs →
  segs !! i = Some x →
  str_all isspace w1 = true → str_all isspace w2 = true →
  parse_format_string (join "," (<[i := w1 +:+ x +:+ w2]> segs))
  = parse_format_string (join "," segs).
Proof.
  intros Hall Hi H1 H2. apply (parse_replace_segment segs i x); [done..| |].
  - rewrite !str_all_app, (space_no_comma _ H1), (space_no_comma _ H2).
    rewrite andb_true_r. simpl. eapply (Forall_lookup_1 _ _ _ _ Hall Hi).
  - by rewrite strip_pad.
Qed.

Lemma parse_ignores_padding_witness :
  parse_format_string "{date},   {description}  ,{amount}"
  = Ok (mkFormatSpec 0 "%m/%d/%Y" 1 2 None true None).
Proof.
  change (parse_format_string
            (join "," (<[1 := "   " +:+ "{description}" +:+ "  "]>
                         ["{date}"; "{description}"; "{amount}"]))
          = Ok (mkFormatSpec 0 "%m/%d/%Y" 1 2 None true None)).
  rewrite parse_ignores_padding.
  - vm_compute. reflexivity.
  - repeat constructor.
  - reflexivity.
  - reflexivity.
  - reflexivity.
Defined.

(** The iteration reads a segment through [reading] only. *)
Lemma loop_body_reading st idx p p' :
  reading p = reading p' → loop_body st (idx, p) = loop_body st (idx, p').
Proof.
  unfold reading, loop_body.
  destruct (field_pattern_match p) as [[id o]|], (field_pattern_match p') as [[id' o']|];
    intros [=]; subst; [|done].
  match goal with H : lower _ = lower _ |- _ => rewrite H in * end.
  destruct (decide (lower id' = "date")) as [E|E]; [by subst|].
  by rewrite (bool_decide_eq_false_2 _ E).
Qed.

Lemma loop_reading st i ps ps' :
  reading <$> ps = reading <$> ps' →
  loop st (enumerate_from i ps) = loop st (enumerate_from i ps').
Proof.
  revert st i ps'; induction ps as [|p ps IH]; intros st i [|p' ps'] [=]; [done|].
  rewrite !loop_cons, (loop_body_reading st i p p') by done.
  destruct (loop_body st (i, p')); simpl; [by apply IH|done].
Qed.

Lemma parse_reading s s' :
  reading <$> parts_of s = reading <$> parts_of s' →
  parse_format_string s = parse_format_string s'.
Proof.
  intros H. unfold parse_format_string, enumerate.
  rewrite (loop_reading _ 0 _ _ H).
  by rewrite !(decide_False (P:=_ = [])) by apply parts_of_nonempty.
Qed.

Lemma wf_with_sub g o :
  wf_segment g = true → wf_sub o = true → wf_segment (with_sub g o) = true.
Proof.
  unfold wf_segment. simpl. rewrite !andb_true_iff. tauto.
Qed.

(** X11: a sub-format counts on the [date] segment only: on a segment
    with any other identifier it may be added, changed or removed, and the
    parse has the same outcome. *)
Theorem parse_ignores_other_subformat (segs : list string) (i : nat)
    (g : segment) (o : option string) :
  Forall (λ s, str_all not_comma s = true) segs →
  segs !! i = Some (render g) → wf_segment g = true →
  lower (ident g) ≠ "date" → wf_sub o = true →
  parse_format_string (join "," (<[i := render (with_sub g o)]> segs))
  = parse_format_string (join "," segs).
Proof.
  intros Hall Hi Hg Hid Ho. pose proof (wf_with_sub _ _ Hg Ho) as Hg'.
  apply parse_reading.
  rewrite !parts_of_join; [|by eapply render_not_nil|done| |].
  2:{ intros E. apply (f_equal length) in E. rewrite length_insert in E.
      by destruct segs. }
  2:{ apply Forall_insert; [done|]. by apply str_all_render. }
  rewrite !list_fmap_insert. apply list_insert_id'. intros _.
  rewrite !list_lookup_fmap, Hi. simpl. f_equal. unfold reading.
  rewrite !field_pattern_match_render by done. simpl.
  by rewrite !decide_False by done.
Qed.

Lemma parse_ignores_other_subformat_witness :
  parse_format_string "{date:%Y}, {description}, {amount:%.2f}"
  = Ok (mkFormatSpec 0 "%Y" 1 2 None true None).
Proof.
  change (parse_format_string
            (join "," (<[2 := render (with_sub (mkSegment " " "amount" None "")
                                        (Some "%.2f"))]>
                         ["{date:%Y}"; " {description}"; " {amount}"]))
          = Ok (mkFormatSpec 0 "%Y" 1 2 None true None)).
  rewrite parse_ignores_other_subformat.
  - vm_compute. reflexivity.
  - repeat constructor.
  - reflexivity.
  - reflexivity.
  - discriminate.
  - reflexivity.
Defined.

(** ** A trailing comma *)

Lemma split_snoc_sep s : split "," (s +:+ ",") = split "," s ++ [""].
Proof.
  induction s as [|c s IH]; [done|].
  change (String c s +:+ ",") with (String c (s +:+ ",")).
  cbn [split]. rewrite IH. case_decide; [done|].
  pose proof (split_nonempty "," s). by destruct (split "," s).
Qed.

(** X12: a comma after a format string that parses adds an empty segment:
    the parse then raises "Invalid format" for it, at the index that
    follows the last segment. *)
Theorem parse_trailing_comma (s : string) (fs : FormatSpec) :
  parse_format_string s = Ok fs →
  parse_format_string (s +:+ ",")
  = Raise (InvalidFormat (length (split "," s)) "").
Proof.
  intros (st & Hl & _)%parse_Ok_inv. apply parse_loop_Raise.
  unfold parts_of, enumerate in *. rewrite split_snoc_sep, fmap_app.
  rewrite enumerate_from_app, loop_app, Hl. simpl. by rewrite length_fmap.
Qed.

Lemma parse_trailing_comma_witness :
  parse_format_string "{date}, {description}, {amount},"
  = Raise (InvalidFormat 3 "").
Proof.
  apply (parse_trailing_comma "{date}, {description}, {amount}"
           (mkFormatSpec 0 "%m/%d/%Y" 1 2 None true None)).
  vm_compute. reflexivity.
Defined.

(** ** Predefined formats *)

(** X13: [get_predefined_format] returns [None] for every source type:
    for [amex] and [boa], mapped to [None], and for any other name, absent
    from the table; no source type has a predefined format string. *)
Theorem get_predefined_format_None (source_type : string) :
  get_predefined_format source_type = None.
Proof.
  unfold get_predefined_format, PREDEFINED_FORMATS.
  generalize (lower source_type). intros k.
  destruct (decide (k = "amex")) as [->|]; [by rewrite lookup_insert_eq|].
  rewrite lookup_insert_ne by done.
  destruct (decide (k = "boa")) as [->|]; [by rewrite lookup_singleton_eq|].
  by rewrite lookup_singleton_ne.
Qed.

Lemma lower_char_idemp c : lower_char (lower_char c) = lower_char c.
Proof. by destruct c as [[] [] [] [] [] [] [] []]. Qed.

Lemma lower_idemp s : lower (lower s) = lower s.
Proof. induction s as [|c s IH]; simpl; [done|]. by rewrite lower_char_idemp, IH. Qed.

(** X14: [is_special_parser_type] holds exactly of the names that read
    [amex] or [boa] once lower-cased, whatever their letter case; a name
    lower-cased beforehand is classified the same. *)
Theorem is_special_parser_type_iff (source_type : string) :
  (is_special_parser_type source_type = true
   ↔ lower source_type = "amex" ∨ lower source_type = "boa") ∧
  is_special_parser_type (lower source_type) = is_special_parser_type source_type.
Proof.
  split.
  - unfold is_special_parser_type, PREDEFINED_FORMATS.
    rewrite bool_decide_eq_true, dom_insert_L, dom_singleton_L.
    by rewrite elem_of_union, !elem_of_singleton.
  - unfold is_special_parser_type. by rewrite lower_idemp.
Qed.

(** ** The date format *)

Lemma str_all_lstrip p s : str_all p s = true → str_all p (lstrip s) = true.
Proof.
  induction s as [|c s IH]; [done|]. intros H.
  change (lstrip (String c s)) with (if isspace c then lstrip s else String c s).
  destruct (isspace c); [|done]. simpl in H. apply andb_true_iff in H as [_ H]. auto.
Qed.

Lemma str_all_rstrip p s : str_all p s = true → str_all p (rstrip s) = true.
Proof.
  induction s as [|c s IH]; [done|]. simpl. intros [Hc Hs]%andb_true_iff.
  specialize (IH Hs). destruct (rstrip s) as [|d r].
  - destruct (isspace c); simpl; [done|]. by rewrite Hc.
  - simpl in *. by rewrite Hc, IH.
Qed.

Lemma parts_of_no_comma s : Forall (λ x, str_all not_comma x = true) (parts_of s).
Proof.
  unfold parts_of. apply Forall_fmap. eapply Forall_impl; [apply split_no_comma|].
  intros x Hx. simpl. unfold strip. by apply str_all_rstrip, str_all_lstrip.
Qed.

(** X15: the date format of a successful parse is never empty and holds
    neither a closing brace nor a comma: a date layout with a comma in it
    cannot be written in a format string. *)
Theorem parse_Ok_date_format_chars (s : string) (fs : FormatSpec) :
  parse_format_string s = Ok fs →
  nonempty (date_format fs) = true ∧
  str_all not_close (date_format fs) = true ∧
  str_all not_comma (date_format fs) = true.
Proof.
  intros (st & Hl & Hd & _ & _ & _ & <-)%parse_Ok_inv.
  destruct (loop_date_fresh _ _ _ _ Hl)
    as [[Hn _]|(j & part & id & o & _ & _ & Hp & Hm & _ & ->)].
  - simpl. rewrite dom_empty_L. apply not_elem_of_empty.
  - exfalso. apply Hn, elem_of_dom. by rewrite Hd.
  - simpl. destruct o as [f|]; simpl; [|done].
    pose proof (Forall_lookup_1 _ _ _ _ (parts_of_no_comma s) Hp) as Hc.
    apply field_pattern_match_inv in Hm as (_ & _ & Hne & Hnc & r & ->).
    simpl in *. rewrite !str_all_app in Hc. simpl in Hc.
    rewrite str_all_app, !andb_true_iff in Hc. tauto.
Qed.

Lemma parse_Ok_date_format_chars_witness :
  nonempty "%d %b %Y" = true ∧ str_all not_close "%d %b %Y" = true ∧
  str_all not_comma "%d %b %Y" = true.
Proof.
  apply (parse_Ok_date_format_chars "{date:%d %b %Y}, {description}, {amount}"
           (mkFormatSpec 0 "%d %b %Y" 1 2 None true None)).
  vm_compute. reflexivity.
Defined.
